(** * Bounded-concurrency dispatcher with retries (0203JS/0204fetch5APIs.js)

    A shallow embedding of [mockFetch], [fetchWithRetry] and
    [fetchWithConcurrency], and the properties of the dispatcher proved on
    it.  The JavaScript numbers of the program (retry counts, delays in
    milliseconds, the limit) are integers ([Z]): doubling is exact on them as
    it is on IEEE doubles below overflow.  The draws of [Math.random] are
    rationals ([Q]), and template literals are string concatenations.
    [console] output is left out. *)

From Stdlib Require Import List String Ascii ZArith QArith Bool Arith Lia.
From Stdlib Require Import Permutation.
Import ListNotations.

Local Close Scope Q_scope.
Local Open Scope string_scope.
Local Open Scope list_scope.

(** ** Strings *)

Module Str.

(** [String.prototype.startsWith]: does [s] start with [p]? *)
Fixpoint startsWith (s p : string) : bool :=
  match p, s with
  | EmptyString, _ => true
  | String c p', String d s' => Ascii.eqb c d && startsWith s' p'
  | String _ _, EmptyString => false
  end.

(** [String.prototype.includes]: [sub] occurs somewhere in [s]. *)
Fixpoint includes (s sub : string) : bool :=
  startsWith s sub ||
  match s with
  | EmptyString => false
  | String _ s' => includes s' sub
  end.

(** Drop the prefix [p] from [s] when [s] starts with it. *)
Fixpoint stripPrefix (p s : string) : option string :=
  match p, s with
  | EmptyString, _ => Some s
  | String c p', String d s' =>
      if Ascii.eqb c d then stripPrefix p' s' else None
  | String _ _, EmptyString => None
  end.

Fixpoint rev_onto (s acc : string) : string :=
  match s with
  | EmptyString => acc
  | String c s' => rev_onto s' (String c acc)
  end.

Definition rev (s : string) : string := rev_onto s EmptyString.

(** Drop the suffix [q] from [s] when [s] ends with it. *)
Definition stripSuffix (q s : string) : option string :=
  match stripPrefix (rev q) (rev s) with
  | Some r => Some (rev r)
  | None => None
  end.

End Str.

(** ** 1. Helpers: the simulated API *)

(** What one call of an async function settles to: the returned value or the
    message of the [Error] it threw. *)
Inductive Settled : Type :=
| Returns (value : string)
| Throws (message : string).

(** [mockFetch(url)], as a function of the first draw of [Math.random]
    (the second draw only sets the latency, which the scheduler below leaves
    free). *)
Definition mockFetch (url : string) (random : Q) : Settled :=
  if Qlt_le_dec random 0.2 then Throws "503 Service Unavailable"
  else if Qlt_le_dec random 0.3 then Throws "404 Not Found"
  else Returns ("Response data from " ++ url)%string.

(** ** 2. Retry logic *)

(** [error.message.includes("50")] *)
Definition isServerError (message : string) : bool :=
  Str.includes message "50".

(** What an execution of [fetchWithRetry] does besides settling: the calls of
    [mockFetch] and the [wait(delay)] suspensions, in order. *)
Inductive Effect : Type :=
| Request (url : string)
| Wait (ms : Z).

(** The message of the error thrown when a failure is final. *)
Definition finalFailure (url message : string) : string :=
  ("❌ Final Failure for " ++ url ++ ": " ++ message)%string.

(** [fetchWithRetry(url, retries, delay)].  [draws k] is the draw of
    [Math.random] in the [k]-th call of [mockFetch] made from here on.  The
    recursion of the source is on [retries], which decreases while it is
    positive: [fuel] bounds the depth, and [None] is only returned when it
    is too small. *)
Fixpoint fetchWithRetry_fuel (fuel : nat) (url : string) (retries delay : Z)
    (draws : nat -> Q) : option (list Effect * Settled) :=
  match mockFetch url (draws 0%nat) with
  | Returns data => Some ([Request url], Returns data)
  | Throws message =>
      if (retries >? 0)%Z && isServerError message then
        match fuel with
        | O => None
        | S fuel' =>
            match fetchWithRetry_fuel fuel' url (retries - 1) (delay * 2)
                    (fun k => draws (S k)) with
            | Some (effects, r) => Some (Request url :: Wait delay :: effects, r)
            | None => None
            end
        end
      else Some ([Request url], Throws (finalFailure url message))
  end.

Definition fetchWithRetry (url : string) (retries delay : Z)
    (draws : nat -> Q) : option (list Effect * Settled) :=
  fetchWithRetry_fuel (Z.to_nat retries) url retries delay draws.

(** How many times the operation was called. *)
Definition invocations (effects : list Effect) : nat :=
  List.length
    (filter (fun e => match e with Request _ => true | Wait _ => false end)
       effects).

(** The delays waited, in order. *)
Fixpoint waits (effects : list Effect) : list Z :=
  match effects with
  | [] => []
  | Wait ms :: rest => ms :: waits rest
  | Request _ :: rest => waits rest
  end.

(** The delay the Backoff Policy of the specification prescribes before
    retry number [attemptIndex] (0 for the first retry). *)
Definition backoffDelay (attemptIndex : nat) (baseDelay : Z) : Z :=
  (baseDelay * 2 ^ Z.of_nat attemptIndex)%Z.

(** Reading a rejection reason back: the target and the message of the
    failure that [finalFailure] wrapped.  [mockFetch] throws two messages
    only, and neither is a suffix of the other. *)
Definition parseReason (reason : string) : option (string * string) :=
  match Str.stripPrefix "❌ Final Failure for " reason with
  | None => None
  | Some body =>
      match Str.stripSuffix ": 503 Service Unavailable" body with
      | Some url => Some (url, "503 Service Unavailable")
      | None =>
          match Str.stripSuffix ": 404 Not Found" body with
          | Some url => Some (url, "404 Not Found")
          | None => None
          end
      end
  end.

(** A reason tells that the retry budget ran out when the failure it wraps
    is of the retryable class: [fetchWithRetry] gives up on such a failure
    only when [retries > 0] is false. *)
Definition signalsExhaustion (reason : string) : bool :=
  match parseReason reason with
  | Some (_, message) => isServerError message
  | None => false
  end.

(** ** 3. Concurrency control *)

(** An entry of [results]: [{ status: "fulfilled", value }] or
    [{ status: "rejected", reason }]. *)
Inductive Outcome : Type :=
| fulfilled (value : string)
| rejected (reason : string).

(** The promise [p] built in an iteration of the loop, named by the number
    of the iteration (each iteration builds a fresh one). *)
Abbreviation Promise := nat (only parsing).

(** What a promise of the chain [.then().catch().finally()] settles to; the
    callbacks return [undefined]. *)
Inductive Settlement : Type :=
| Fulfils
| Rejects (message : string).

Module JsArray.

(** [Array.prototype.indexOf]: the first index of [p], or -1. *)
Fixpoint indexOf (xs : list Promise) (p : Promise) : Z :=
  match xs with
  | [] => -1
  | x :: xs' =>
      if Nat.eqb x p then 0
      else let i := indexOf xs' p in if (i <? 0)%Z then -1 else i + 1
  end%Z.

(** [xs.splice(start, 1)]: a negative [start] counts from the end, and a
    [start] beyond the end removes nothing. *)
Definition splice1 {A : Type} (xs : list A) (start : Z) : list A :=
  let len := Z.of_nat (List.length xs) in
  let from := if (start <? 0)%Z then Z.max (len + start) 0 else Z.min start len in
  firstn (Z.to_nat from) xs ++ skipn (S (Z.to_nat from)) xs.

End JsArray.

(** The two arrays of [fetchWithConcurrency], shared by the loop and by the
    callbacks of every [p]. *)
Record Heap : Type := mkHeap {
  results : list Outcome;
  executing : list Promise
}.

Definition pushResult (o : Outcome) (h : Heap) : Heap :=
  mkHeap (results h ++ [o]) (executing h).

Definition pushExecuting (p : Promise) (h : Heap) : Heap :=
  mkHeap (results h) (executing h ++ [p]).

(** The callback of [.finally]:
    [executing.splice(executing.indexOf(p), 1)]. *)
Definition removeExecuting (p : Promise) (h : Heap) : Heap :=
  mkHeap (results h)
         (JsArray.splice1 (executing h) (JsArray.indexOf (executing h) p)).

(** [.then(cb)]: [cb] runs on fulfilment, a rejection passes through. *)
Definition then_ (r : Settled) (cb : string -> Heap -> Heap) (h : Heap)
  : Settlement * Heap :=
  match r with
  | Returns data => (Fulfils, cb data h)
  | Throws message => (Rejects message, h)
  end.

(** [.catch(cb)]: [cb] runs on rejection with the error, whose [message] it
    reads; a fulfilment passes through. *)
Definition catch_ (r : Settlement) (cb : string -> Heap -> Heap) (h : Heap)
  : Settlement * Heap :=
  match r with
  | Fulfils => (Fulfils, h)
  | Rejects message => (Fulfils, cb message h)
  end.

(** [.finally(cb)]: [cb] runs either way, and the settlement passes
    through. *)
Definition finally_ (r : Settlement) (cb : Heap -> Heap) (h : Heap)
  : Settlement * Heap :=
  (r, cb h).

(** The reactions of [p] once [fetchWithRetry(url)] has settled to [r]:
    what [p] settles to, and the heap they leave. *)
Definition settleChain (p : Promise) (r : Settled) (h : Heap)
  : Settlement * Heap :=
  let (r1, h1) := then_ r (fun data => pushResult (fulfilled data)) h in
  let (r2, h2) := catch_ r1 (fun message => pushResult (rejected message)) h1 in
  finally_ r2 (removeExecuting p) h2.

(** Where the body of [fetchWithConcurrency] stands. *)
Inductive Main : Type :=
| AwaitRace (snapshot : list Promise) (rest : list string)
    (** suspended in [await Promise.race(executing)]; [rest] are the urls
        the loop has not reached *)
| AwaitAll (snapshot : list Promise)
    (** suspended in [await Promise.all(executing)] *)
| Resolved
    (** [return results] was executed: the run is fulfilled with the
        array [results] *)
| Failed (message : string).
    (** an [await] threw: the run is rejected *)

Record State : Type := mkState {
  heap : Heap;
  created : nat;                        (** promises [p] built so far *)
  inflight : list (Promise * string);   (** operations started, not settled *)
  settled : list (Promise * Settlement);(** the [p]s settled, oldest first *)
  main : Main
}.

(** The loop from the iteration of the first url of [urls], up to the next
    [await].  An iteration starts [fetchWithRetry(url)], builds [p] on it and
    pushes [p]; the callbacks of [p] cannot run before the loop suspends. *)
Fixpoint forOf (limit : Z) (urls : list string) (h : Heap) (n : nat)
    (ops : list (Promise * string)) (done : list (Promise * Settlement))
  : State :=
  match urls with
  | [] => mkState h n ops done (AwaitAll (executing h))
  | url :: rest =>
      let p := n in
      let h' := pushExecuting p h in
      let ops' := ops ++ [(p, url)] in
      if (Z.of_nat (List.length (executing h')) >=? limit)%Z
      then mkState h' (S n) ops' done (AwaitRace (executing h') rest)
      else forOf limit rest h' (S n) ops' done
  end.

(** The state in which the call [fetchWithConcurrency(urls, limit)] first
    suspends. *)
Definition fetchWithConcurrency (urls : list string) (limit : Z) : State :=
  forOf limit urls (mkHeap [] []) 0 [] [].

(** What happens next: the operation under [p] settles and the reactions of
    [p] run, or the suspended body resumes. *)
Inductive Event : Type :=
| Settle (p : Promise)
| Wake.

Definition isSettled (done : list (Promise * Settlement)) (p : Promise) : bool :=
  existsb (fun d => Nat.eqb (fst d) p) done.

Definition urlOf (ops : list (Promise * string)) (p : Promise) : option string :=
  match find (fun o => Nat.eqb (fst o) p) ops with
  | Some (_, url) => Some url
  | None => None
  end.

Definition dropOp (ops : list (Promise * string)) (p : Promise)
  : list (Promise * string) :=
  filter (fun o => negb (Nat.eqb (fst o) p)) ops.

Section Dispatcher.

(** [draws p k]: the draw of [Math.random] in the [k]-th call of [mockFetch]
    for the operation under [p]. *)
Variable draws : Promise -> nat -> Q.
Variable limit : Z.

(** One event.  [Settle p] needs the operation under [p] to be in flight;
    [fetchWithRetry] is called with its default [retries = 3] and
    [delay = 1000].  [Wake] needs the awaited promise to be settled:
    [Promise.race] settles as the first member of its snapshot to settle
    does, [Promise.all] rejects with a member that rejects and fulfils
    when every member has. *)
Definition step (e : Event) (s : State) : option State :=
  match e with
  | Settle p =>
      match urlOf (inflight s) p with
      | None => None
      | Some url =>
          match fetchWithRetry url 3 1000 (draws p) with
          | None => None
          | Some (_, r) =>
              let (rp, h') := settleChain p r (heap s) in
              Some (mkState h' (created s) (dropOp (inflight s) p)
                            (settled s ++ [(p, rp)]) (main s))
          end
      end
  | Wake =>
      match main s with
      | AwaitRace snapshot rest =>
          match find (fun d => existsb (Nat.eqb (fst d)) snapshot) (settled s) with
          | Some (_, Fulfils) =>
              Some (forOf limit rest (heap s) (created s) (inflight s) (settled s))
          | Some (_, Rejects message) =>
              Some (mkState (heap s) (created s) (inflight s) (settled s)
                            (Failed message))
          | None => None
          end
      | AwaitAll snapshot =>
          match find (fun d => match snd d with
                               | Rejects _ => existsb (Nat.eqb (fst d)) snapshot
                               | Fulfils => false
                               end) (settled s) with
          | Some (_, Rejects message) =>
              Some (mkState (heap s) (created s) (inflight s) (settled s)
                            (Failed message))
          | _ =>
              if forallb (isSettled (settled s)) snapshot
              then Some (mkState (heap s) (created s) (inflight s) (settled s)
                                 Resolved)
              else None
          end
      | Resolved | Failed _ => None
      end
  end.

(** A schedule: the events in the order they happen. *)
Fixpoint exec (es : list Event) (s : State) : option State :=
  match es with
  | [] => Some s
  | e :: es' =>
      match step e s with
      | Some s' => exec es' s'
      | None => None
      end
  end.

(** The scheduler that resumes the body as soon as it can be, and otherwise
    lets the oldest operation in flight settle. *)
Definition nextEvent (s : State) : option Event :=
  match step Wake s with
  | Some _ => Some Wake
  | None =>
      match inflight s with
      | (p, _) :: _ => Some (Settle p)
      | [] => None
      end
  end.

Fixpoint drive (fuel : nat) (s : State) : State :=
  match fuel with
  | O => s
  | S fuel' =>
      match nextEvent s with
      | Some e =>
          match step e s with
          | Some s' => drive fuel' s'
          | None => s
          end
      | None => s
      end
  end.

End Dispatcher.

(** The ResultSet of a run that has resolved. *)
Definition resultSet (s : State) : option (list Outcome) :=
  match main s with
  | Resolved => Some (results (heap s))
  | _ => None
  end.

(** The entry the callbacks of [p] push for a settlement of the
    operation. *)
Definition outcomeOf (r : Settled) : Outcome :=
  match r with
  | Returns data => fulfilled data
  | Throws message => rejected message
  end.


(** The test by which [filter] drops [p]. *)
Definition isNot (p : Promise) (x : Promise) : bool := negb (Nat.eqb x p).

(** ** 4. Main execution *)

Definition apiUrls : list string :=
  ["API-1 (User Profile)"; "API-2 (Dashboard Stats)"; "API-3 (Notifications)";
   "API-4 (Settings)"; "API-5 (Friends List)"].

(** ** What the dispatcher maintains *)

(** The entry that target number [p] of [urls] ends with: the settlement of
    [fetchWithRetry] on its url, with the draws of its own calls. *)
Definition outcomeFor (urls : list string) (draws : Promise -> nat -> Q)
    (p : Promise) : option Outcome :=
  match nth_error urls p with
  | Some url =>
      match fetchWithRetry url 3 1000 (draws p) with
      | Some (_, r) => Some (outcomeOf r)
      | None => None
      end
  | None => None
  end.

(** The number of operations that [executing.length >= limit] lets be in
    flight: [limit], and one when [limit] is below one, since the test
    follows the push. *)
Definition capacity (limit : Z) : Z := Z.max limit 1.

(** An upper bound on the events left before the run resolves. *)
Definition workLeft (s : State) : nat :=
  List.length (inflight s) +
  match main s with
  | AwaitRace _ rest => 2 * List.length rest + 2
  | AwaitAll _ => 1
  | Resolved | Failed _ => 0
  end.

(** The run was rejected before any target was admitted. *)
Definition failsFast (s : State) : Prop :=
  exists message, main s = Failed message /\ created s = 0%nat.

(** With a limit below one the loop awaits the operation it has just
    started, alone. *)
Definition Sequential (s : State) : Prop :=
  match main s with
  | AwaitRace snapshot _ => snapshot = [pred (created s)]
  | _ => True
  end.

(** The first targets, as many as the limit, were started by the call; a
    later one is started only once one of them has settled. *)
Definition FirstWave (limit : Z) (s : State) : Prop :=
  (Z.of_nat (created s) <= limit)%Z
  \/ exists p, (Z.of_nat p < limit)%Z /\ isSettled (settled s) p = true.

Section Invariant.

Variable urls : list string.
Variable draws : Promise -> nat -> Q.
Variable limit : Z.

(** The arrays and the bookkeeping agree: [executing] lists the operations
    in flight, every promise built is in flight or settled and not both,
    every [p] settles fulfilled, and [results] has the entries of the settled
    targets in the order they settled. *)
Record WorldInv (h : Heap) (n : nat) (ops : list (Promise * string))
    (done : list (Promise * Settlement)) : Prop := {
  w_exec : executing h = map fst ops;
  w_perm : Permutation (map fst ops ++ map fst done) (seq 0 n);
  w_urls : forall p url, In (p, url) ops -> nth_error urls p = Some url;
  w_fulfils : forall d, In d done -> snd d = Fulfils;
  w_results :
    map Some (results h) = map (fun d => outcomeFor urls draws (fst d)) done;
  w_le : (n <= List.length urls)%nat
}.

Definition MainInv (s : State) : Prop :=
  match main s with
  | AwaitRace snapshot rest =>
      snapshot <> []
      /\ incl (map fst (inflight s)) snapshot
      /\ (forall p, In p snapshot -> (p < created s)%nat)
      /\ rest = skipn (created s) urls
      /\ (Z.of_nat (List.length snapshot) <= capacity limit)%Z
  | AwaitAll snapshot =>
      incl (map fst (inflight s)) snapshot
      /\ (forall p, In p snapshot -> (p < created s)%nat)
      /\ created s = List.length urls
  | Resolved => inflight s = [] /\ created s = List.length urls
  | Failed _ => False
  end.

Record Inv (s : State) : Prop := {
  inv_world : WorldInv (heap s) (created s) (inflight s) (settled s);
  inv_main : MainInv s;
  inv_bound : (Z.of_nat (List.length (inflight s)) <= capacity limit)%Z
}.

End Invariant.

(** ** Further notions *)

(** The time an execution of [fetchWithRetry] spends in [wait]. *)
Definition totalWait (effects : list Effect) : Z :=
  fold_right Z.add 0%Z (waits effects).

(** What [fetchWithRetry] settles to when the attempt with draw [random] is
    its last one: the response, or the failure wrapped as final. *)
Definition lastAttempt (url : string) (random : Q) : Settled :=
  match mockFetch url random with
  | Returns data => Returns data
  | Throws message => Throws (finalFailure url message)
  end.

(** A race is on as many promises as the limit lets be in flight. *)
Definition Saturated (limit : Z) (s : State) : Prop :=
  match main s with
  | AwaitRace snapshot _ => Z.of_nat (List.length snapshot) = capacity limit
  | _ => True
  end.

(** The promise awaited was built on the array [executing] as it is. *)
Definition Suspended (s : State) : Prop :=
  match main s with
  | AwaitRace snapshot _ | AwaitAll snapshot => snapshot = executing (heap s)
  | _ => True
  end.

(** The targets have settled in the order of the list, and the one in
    flight, if any, is the next. *)
Definition Ordered (s : State) : Prop :=
  map fst (settled s) ++ map fst (inflight s) = seq 0 (created s).



(** * Proofs *)

(** ** The definitions at work *)

Example isServerError_503 : isServerError "503 Service Unavailable" = true.
Proof. reflexivity. Qed.

Example isServerError_404 : isServerError "404 Not Found" = false.
Proof. reflexivity. Qed.

(** Two retryable failures, then a success: waits of 1000 and 2000 ms. *)
Example fetchWithRetry_recovers :
  fetchWithRetry "X" 3 1000 (fun k => if Nat.ltb k 2 then 0.1%Q else 0.9%Q)
  = Some ([Request "X"; Wait 1000; Request "X"; Wait 2000; Request "X"],
          Returns "Response data from X").
Proof. vm_compute. reflexivity. Qed.

(** [indexOf] of a promise that is not in the array is -1, and
    [splice(-1, 1)] removes the last element. *)
Example splice1_absent :
  JsArray.splice1 [1; 2; 3]%nat (JsArray.indexOf [1; 2; 3]%nat 7%nat)
  = [1; 2]%nat.
Proof. reflexivity. Qed.

(** Five targets, limit two; the second target fails for good and the
    fourth keeps failing, and they settle in the order 1, 0, 3, 2, 4. *)
Example five_targets_run :
  let draws := fun (p : nat) (_ : nat) =>
                 if Nat.eqb p 1 then 0.25%Q
                 else if Nat.eqb p 3 then 0.1%Q else 0.7%Q in
  option_map (fun s => (results (heap s), main s))
    (exec draws 2
       [Settle 1%nat; Wake; Settle 0%nat; Wake; Settle 3%nat; Wake;
        Settle 2%nat; Wake; Settle 4%nat; Wake]
       (fetchWithConcurrency ["A"; "B"; "C"; "D"; "E"] 2))
  = Some ([rejected "❌ Final Failure for B: 404 Not Found";
           fulfilled "Response data from A";
           rejected "❌ Final Failure for D: 503 Service Unavailable";
           fulfilled "Response data from C";
           fulfilled "Response data from E"], Resolved).
Proof. vm_compute. reflexivity. Qed.

(** The body cannot resume while no promise of the race has settled. *)
Example wake_needs_a_settlement :
  step (fun _ _ => 0.5%Q) 2 Wake (fetchWithConcurrency ["A"; "B"; "C"] 2) = None.
Proof. reflexivity. Qed.
(** ** Strings *)

Lemma stripPrefix_app (p s : string) :
  Str.stripPrefix p (p ++ s)%string = Some s.
Proof.
  induction p as [|c p IH]; simpl; [reflexivity|].
  now rewrite Ascii.eqb_refl.
Qed.

Lemma string_app_assoc (a b c : string) :
  ((a ++ b) ++ c = a ++ (b ++ c))%string.
Proof. induction a as [|x a IH]; simpl; [reflexivity | now rewrite IH]. Qed.

Lemma string_app_empty (a : string) : (a ++ "")%string = a.
Proof. induction a as [|x a IH]; simpl; [reflexivity | now rewrite IH]. Qed.

Lemma rev_onto_spec (s acc : string) :
  Str.rev_onto s acc = (Str.rev s ++ acc)%string.
Proof.
  unfold Str.rev. revert acc.
  induction s as [|c s IH]; intros acc; simpl; [reflexivity|].
  rewrite (IH (String c "")), IH, string_app_assoc. reflexivity.
Qed.

Lemma rev_app (s t : string) :
  Str.rev (s ++ t)%string = (Str.rev t ++ Str.rev s)%string.
Proof.
  induction s as [|c s IH]; simpl.
  - now rewrite string_app_empty.
  - unfold Str.rev at 1 3. simpl. rewrite !rev_onto_spec, IH.
    now rewrite string_app_assoc.
Qed.

Lemma rev_involutive (s : string) : Str.rev (Str.rev s) = s.
Proof.
  induction s as [|c s IH]; [reflexivity|].
  unfold Str.rev at 2. simpl. rewrite rev_onto_spec, rev_app, IH.
  reflexivity.
Qed.

Lemma stripSuffix_app (q s : string) :
  Str.stripSuffix q (s ++ q)%string = Some s.
Proof.
  unfold Str.stripSuffix.
  now rewrite rev_app, stripPrefix_app, rev_involutive.
Qed.

Lemma parseReason_transient (url : string) :
  parseReason (finalFailure url "503 Service Unavailable")
  = Some (url, "503 Service Unavailable").
Proof.
  unfold parseReason, finalFailure.
  rewrite stripPrefix_app, stripSuffix_app. reflexivity.
Qed.

Lemma parseReason_permanent (url : string) :
  parseReason (finalFailure url "404 Not Found") = Some (url, "404 Not Found").
Proof.
  unfold parseReason, finalFailure.
  rewrite stripPrefix_app, stripSuffix_app.
  unfold Str.stripSuffix. rewrite rev_app. reflexivity.
Qed.

(** ** The simulated API *)

Lemma mockFetch_cases (url : string) (random : Q) :
  mockFetch url random = Throws "503 Service Unavailable" /\ (random < 0.2)%Q
  \/ mockFetch url random = Throws "404 Not Found"
     /\ (0.2 <= random)%Q /\ (random < 0.3)%Q
  \/ mockFetch url random = Returns ("Response data from " ++ url)%string
     /\ (0.3 <= random)%Q.
Proof.
  unfold mockFetch.
  destruct (Qlt_le_dec random 0.2); [now left|].
  destruct (Qlt_le_dec random 0.3); [right; left | right; right]; auto.
Qed.

Lemma mockFetch_transient (url : string) (random : Q) :
  (random < 0.2)%Q -> mockFetch url random = Throws "503 Service Unavailable".
Proof.
  intros H. unfold mockFetch.
  destruct (Qlt_le_dec random 0.2) as [_|H']; [reflexivity|].
  exfalso. exact (Qlt_not_le _ _ H H').
Qed.

Lemma mockFetch_permanent (url : string) (random : Q) :
  (0.2 <= random)%Q -> (random < 0.3)%Q ->
  mockFetch url random = Throws "404 Not Found".
Proof.
  intros H1 H2. unfold mockFetch.
  destruct (Qlt_le_dec random 0.2) as [H'|_].
  - exfalso. exact (Qlt_not_le _ _ H' H1).
  - destruct (Qlt_le_dec random 0.3) as [_|H']; [reflexivity|].
    exfalso. exact (Qlt_not_le _ _ H2 H').
Qed.

(** ** The retry executor *)

Lemma fetchWithRetry_fuel_eq fuel url retries delay draws :
  fetchWithRetry_fuel fuel url retries delay draws =
  match mockFetch url (draws 0%nat) with
  | Returns data => Some ([Request url], Returns data)
  | Throws message =>
      if (retries >? 0)%Z && isServerError message then
        match fuel with
        | O => None
        | S fuel' =>
            match fetchWithRetry_fuel fuel' url (retries - 1) (delay * 2)
                    (fun k => draws (S k)) with
            | Some (effects, r) => Some (Request url :: Wait delay :: effects, r)
            | None => None
            end
        end
      else Some ([Request url], Throws (finalFailure url message))
  end.
Proof. destruct fuel; reflexivity. Qed.

(** [Z.to_nat retries] is fuel enough: the function is total. *)
Lemma fetchWithRetry_fuel_total fuel :
  forall url retries delay draws,
    (Z.to_nat retries <= fuel)%nat ->
    exists effects r,
      fetchWithRetry_fuel fuel url retries delay draws = Some (effects, r).
Proof.
  induction fuel as [|fuel IH]; intros url retries delay draws Hf;
    rewrite fetchWithRetry_fuel_eq;
    destruct (mockFetch url (draws 0%nat)) as [data|message]; eauto;
    destruct (retries >? 0)%Z eqn:Hr; simpl; eauto;
    destruct (isServerError message); eauto.
  - apply Z.gtb_lt in Hr. lia.
  - apply Z.gtb_lt in Hr.
    destruct (IH url (retries - 1)%Z (delay * 2)%Z (fun k => draws (S k)))
      as (effects & r & E); [lia|].
    rewrite E. eauto.
Qed.

Lemma fetchWithRetry_total url retries delay draws :
  exists effects r, fetchWithRetry url retries delay draws = Some (effects, r).
Proof. apply fetchWithRetry_fuel_total. lia. Qed.

Lemma backoffDelay_next (k : nat) (delay : Z) :
  backoffDelay k (delay * 2) = backoffDelay (S k) delay.
Proof.
  unfold backoffDelay. rewrite Nat2Z.inj_succ, Z.pow_succ_r by lia. ring.
Qed.

Lemma backoff_shift (n : nat) (delay : Z) :
  delay :: map (fun k => backoffDelay k (delay * 2)) (seq 0 n)
  = map (fun k => backoffDelay k delay) (seq 0 (S n)).
Proof.
  cbn [seq map]. f_equal.
  - unfold backoffDelay. simpl. ring.
  - rewrite <- seq_shift, map_map. apply map_ext. intros k.
    apply backoffDelay_next.
Qed.

(** The waits of any execution are the first terms of the doubling
    sequence. *)
Lemma waits_geometric fuel :
  forall url retries delay draws effects r,
    fetchWithRetry_fuel fuel url retries delay draws = Some (effects, r) ->
    waits effects
    = map (fun k => backoffDelay k delay) (seq 0 (List.length (waits effects))).
Proof.
  induction fuel as [|fuel IH]; intros url retries delay draws effects r;
    rewrite fetchWithRetry_fuel_eq;
    destruct (mockFetch url (draws 0%nat)) as [data|message];
    try (intros [= <- <-]; reflexivity);
    destruct ((retries >? 0)%Z && isServerError message);
    try (intros [= <- <-]; reflexivity); try discriminate.
  destruct (fetchWithRetry_fuel fuel url (retries - 1) (delay * 2)
              (fun k => draws (S k))) as [[effects' r']|] eqn:E;
    [|discriminate].
  intros [= <- <-]. apply IH in E.
  cbn [waits List.length]. rewrite E at 1. apply backoff_shift.
Qed.

(** A run in which every attempt fails with the retryable error. *)
Lemma always_transient (n : nat) :
  forall fuel url delay draws,
    (n <= fuel)%nat ->
    (forall k, (draws k < 0.2)%Q) ->
    exists effects,
      fetchWithRetry_fuel fuel url (Z.of_nat n) delay draws
      = Some (effects, Throws (finalFailure url "503 Service Unavailable"))
      /\ invocations effects = S n
      /\ waits effects = map (fun k => backoffDelay k delay) (seq 0 n).
Proof.
  induction n as [|n IH]; intros fuel url delay draws Hf Hd;
    rewrite fetchWithRetry_fuel_eq, (mockFetch_transient url _ (Hd 0%nat)).
  - eexists. split; [reflexivity|]. split; reflexivity.
  - replace (Z.of_nat (S n) >? 0)%Z with true by (symmetry; apply Z.gtb_lt; lia).
    replace (isServerError "503 Service Unavailable") with true by reflexivity.
    cbn [andb]. destruct fuel as [|fuel]; [lia|].
    replace (Z.of_nat (S n) - 1)%Z with (Z.of_nat n) by lia.
    destruct (IH fuel url (delay * 2)%Z (fun k => draws (S k)))
      as (effects & E & Hi & Hw); [lia | intros k; apply Hd |].
    rewrite E. eexists. split; [reflexivity|]. split.
    + unfold invocations in *. cbn [filter List.length]. now rewrite Hi.
    + cbn [waits]. rewrite Hw. apply backoff_shift.
Qed.

(** Why a run was rejected can be read off its reason: either the last
    failure was retryable and every retry had been used, or the last failure
    was the non-retryable one. *)
Lemma reason_classifies fuel :
  forall url retries delay draws effects reason,
    (0 <= retries)%Z ->
    fetchWithRetry_fuel fuel url retries delay draws
    = Some (effects, Throws reason) ->
    (signalsExhaustion reason = true
     /\ List.length (waits effects) = Z.to_nat retries
     /\ mockFetch url (draws (List.length (waits effects)))
        = Throws "503 Service Unavailable")
    \/ (signalsExhaustion reason = false
        /\ mockFetch url (draws (List.length (waits effects)))
           = Throws "404 Not Found").
Proof.
  induction fuel as [|fuel IH]; intros url retries delay draws effects reason Hr;
    rewrite fetchWithRetry_fuel_eq;
    destruct (mockFetch_cases url (draws 0%nat))
      as [[E _]|[[E _]|[E _]]]; rewrite E; try discriminate.
  all: try (replace (isServerError "404 Not Found") with false by reflexivity;
            rewrite andb_false_r; intros [= <- <-]; right; split;
            [unfold signalsExhaustion; now rewrite parseReason_permanent
            | exact E]).
  all: replace (isServerError "503 Service Unavailable") with true by reflexivity;
    rewrite andb_true_r; destruct (retries >? 0)%Z eqn:Hpos; try discriminate.
  all: try (intros [= <- <-]; left; split;
            [unfold signalsExhaustion; now rewrite parseReason_transient
            | split; [rewrite Z.gtb_ltb, Z.ltb_ge in Hpos; simpl; lia
                     | exact E]]).
  destruct (fetchWithRetry_fuel fuel url (retries - 1) (delay * 2)
              (fun k => draws (S k))) as [[effects' r']|] eqn:E';
    [|discriminate].
  intros [= <- ->]. apply Z.gtb_lt in Hpos.
  apply IH in E'; [|lia]. cbn [waits List.length].
  destruct E' as [(Hs & Hl & Hm)|(Hs & Hm)]; [left | right]; repeat split;
    auto.
  rewrite Hl. lia.
Qed.

(** ** Arrays *)

Lemma indexOf_In (xs : list Promise) (p : Promise) :
  In p xs -> (0 <= JsArray.indexOf xs p < Z.of_nat (List.length xs))%Z.
Proof.
  induction xs as [|x xs IH]; [intros []|].
  intros Hin. cbn [JsArray.indexOf List.length].
  destruct (Nat.eqb x p) eqn:E; [lia|].
  apply Nat.eqb_neq in E. destruct Hin as [->|Hin]; [congruence|].
  specialize (IH Hin).
  destruct (JsArray.indexOf xs p <? 0)%Z eqn:Hneg; [apply Z.ltb_lt in Hneg|];
    lia.
Qed.

Lemma filter_isNot_notin (xs : list Promise) (p : Promise) :
  ~ In p xs -> filter (isNot p) xs = xs.
Proof.
  induction xs as [|x xs IH]; [reflexivity|].
  intros Hn. cbn [filter]. unfold isNot at 1.
  destruct (Nat.eqb x p) eqn:E.
  - apply Nat.eqb_eq in E. subst. exfalso. apply Hn. now left.
  - cbn [negb]. f_equal. apply IH. intros H. apply Hn. now right.
Qed.

Lemma splice1_cons {A : Type} (x : A) (xs : list A) (i : Z) :
  (0 <= i < Z.of_nat (List.length xs))%Z ->
  JsArray.splice1 (x :: xs) (i + 1) = x :: JsArray.splice1 xs i.
Proof.
  intros Hi. unfold JsArray.splice1. cbn [List.length].
  replace (i + 1 <? 0)%Z with false by (symmetry; apply Z.ltb_ge; lia).
  replace (i <? 0)%Z with false by (symmetry; apply Z.ltb_ge; lia).
  rewrite !Z.min_l by lia.
  replace (Z.to_nat (i + 1)) with (S (Z.to_nat i)) by lia.
  reflexivity.
Qed.

(** The callback of [.finally] removes [p] itself, and nothing else, as
    long as [p] is in the array, where it occurs once. *)
Lemma splice1_indexOf (xs : list Promise) (p : Promise) :
  NoDup xs -> In p xs ->
  JsArray.splice1 xs (JsArray.indexOf xs p) = filter (isNot p) xs.
Proof.
  induction xs as [|x xs IH]; [intros _ []|].
  intros Hnd Hin. inversion Hnd as [|? ? Hx Hnd']; subst.
  cbn [JsArray.indexOf filter]. unfold isNot at 1.
  destruct (Nat.eqb x p) eqn:E.
  - apply Nat.eqb_eq in E. subst x. cbn [negb].
    rewrite filter_isNot_notin by exact Hx. reflexivity.
  - apply Nat.eqb_neq in E. destruct Hin as [->|Hin]; [congruence|].
    pose proof (indexOf_In xs p Hin) as Hi.
    replace (JsArray.indexOf xs p <? 0)%Z with false
      by (symmetry; apply Z.ltb_ge; lia).
    rewrite splice1_cons by exact Hi. cbn [negb]. f_equal. now apply IH.
Qed.

Lemma map_fst_dropOp (ops : list (Promise * string)) (p : Promise) :
  map fst (dropOp ops p) = filter (isNot p) (map fst ops).
Proof.
  induction ops as [|[q u] ops IH]; [reflexivity|].
  cbn [dropOp map filter fst]. unfold isNot at 1.
  destruct (negb (Nat.eqb q p)); cbn [map fst]; [f_equal|]; exact IH.
Qed.

Lemma In_filter_isNot (xs : list Promise) (p q : Promise) :
  In q (filter (isNot p) xs) <-> In q xs /\ q <> p.
Proof.
  rewrite filter_In. unfold isNot. rewrite negb_true_iff, Nat.eqb_neq.
  reflexivity.
Qed.

Lemma Permutation_take_out (xs : list Promise) (p : Promise) :
  NoDup xs -> In p xs -> Permutation xs (p :: filter (isNot p) xs).
Proof.
  intros Hnd Hin. apply NoDup_Permutation; [exact Hnd | |].
  - constructor.
    + rewrite In_filter_isNot. intros [_ H]. now apply H.
    + now apply NoDup_filter.
  - intros q. cbn [In]. rewrite In_filter_isNot.
    destruct (Nat.eq_dec p q) as [->|Hne]; [tauto|].
    split; [intros H; right; split; [exact H | congruence] | intros [H|[H _]]];
      [congruence | exact H].
Qed.

Lemma length_dropOp (ops : list (Promise * string)) (p : Promise) (url : string) :
  In (p, url) ops -> (List.length (dropOp ops p) < List.length ops)%nat.
Proof.
  induction ops as [|[q u] ops IH]; [intros []|].
  intros Hin. cbn [dropOp filter fst List.length].
  pose proof (filter_length_le (fun o => negb (Nat.eqb (fst o) p)) ops) as Hle.
  destruct (Nat.eqb q p) eqn:E; cbn [negb List.length].
  - lia.
  - destruct Hin as [[= -> ->]|Hin]; [rewrite Nat.eqb_refl in E; discriminate|].
    specialize (IH Hin). unfold dropOp in IH. lia.
Qed.

Lemma In_dropOp (ops : list (Promise * string)) (p : Promise) (o : Promise * string) :
  In o (dropOp ops p) -> In o ops.
Proof. unfold dropOp. rewrite filter_In. tauto. Qed.

Lemma urlOf_In (ops : list (Promise * string)) (p : Promise) (url : string) :
  urlOf ops p = Some url -> In (p, url) ops.
Proof.
  unfold urlOf.
  destruct (find (fun o => Nat.eqb (fst o) p) ops) as [[q u]|] eqn:E;
    [|discriminate].
  intros [= ->]. apply find_some in E. destruct E as [Hin Heq].
  apply Nat.eqb_eq in Heq. cbn in Heq. now subst.
Qed.

Lemma urlOf_head (ops : list (Promise * string)) (p : Promise) (url : string) :
  urlOf ((p, url) :: ops) p = Some url.
Proof. unfold urlOf. cbn [find fst]. now rewrite Nat.eqb_refl. Qed.

Lemma skipn_cons_inv {A : Type} (n : nat) (l : list A) (x : A) (r : list A) :
  skipn n l = x :: r ->
  nth_error l n = Some x /\ skipn (S n) l = r /\ (n < List.length l)%nat.
Proof.
  revert l. induction n as [|n IH]; intros [|y l]; cbn [skipn];
    try discriminate.
  - intros [= -> ->]. cbn. repeat split. lia.
  - intros H. destruct (IH _ H) as (H1 & H2 & H3). cbn [nth_error List.length].
    repeat split; [exact H1 | exact H2 | lia].
Qed.

Lemma isSettled_In (done : list (Promise * Settlement)) (p : Promise) :
  isSettled done p = true <-> In p (map fst done).
Proof.
  unfold isSettled. rewrite existsb_exists, in_map_iff.
  split; intros [d [H1 H2]].
  - exists d. apply Nat.eqb_eq in H2. tauto.
  - exists d. subst. now rewrite Nat.eqb_refl.
Qed.


(** ** The dispatcher *)

Lemma settleChain_eq (p : Promise) (r : Settled) (h : Heap) :
  settleChain p r h
  = (Fulfils, removeExecuting p (pushResult (outcomeOf r) h)).
Proof. destruct r; reflexivity. Qed.

Lemma exec_app draws limit (es1 es2 : list Event) (s : State) :
  exec draws limit (es1 ++ es2) s =
  match exec draws limit es1 s with
  | Some s' => exec draws limit es2 s'
  | None => None
  end.
Proof.
  revert s. induction es1 as [|e es1 IH]; intros s; [reflexivity|].
  cbn [app exec]. destruct (step draws limit e s); [apply IH | reflexivity].
Qed.

(** Induction over the states a schedule reaches. *)
Lemma exec_invariant draws limit (P : State -> Prop) :
  (forall e s s', P s -> step draws limit e s = Some s' -> P s') ->
  forall es s s', P s -> exec draws limit es s = Some s' -> P s'.
Proof.
  intros Hstep es. induction es as [|e es IH]; intros s s' Hs.
  - now intros [= <-].
  - cbn [exec]. destruct (step draws limit e s) as [s1|] eqn:E; [|discriminate].
    apply IH. exact (Hstep _ _ _ Hs E).
Qed.

(** The two ways the events of [step] are taken apart below: a [Settle]
    that happens finds its operation in flight and a settlement of
    [fetchWithRetry]; a [Wake] from [Promise.all] ends the run, one way or
    the other. *)
Ltac settle_happens s p url effects r Hu Hf :=
  destruct (urlOf (inflight s) p) as [url|] eqn:Hu; [|discriminate];
  destruct (fetchWithRetry url 3 1000 _) as [[effects r]|] eqn:Hf;
    [|discriminate];
  rewrite settleChain_eq.

Ltac all_resumes finish :=
  destruct (find _ _) as [[? [|?]]|];
    try (intros [= <-]; finish);
    destruct (forallb _ _); try discriminate;
    intros [= <-]; finish.

Section Safety.

Variable urls : list string.
Variable draws : Promise -> nat -> Q.
Variable limit : Z.

Lemma world_started h n ops done (p : Promise) :
  WorldInv urls draws h n ops done ->
  In p (map fst ops ++ map fst done) <-> (p < n)%nat.
Proof.
  intros W. split; intros H.
  - apply (Permutation_in _ (w_perm _ _ _ _ _ _ W)) in H.
    apply in_seq in H. lia.
  - apply (Permutation_in _ (Permutation_sym (w_perm _ _ _ _ _ _ W))).
    apply in_seq. lia.
Qed.

Lemma world_NoDup h n ops done :
  WorldInv urls draws h n ops done ->
  NoDup (map fst ops ++ map fst done).
Proof.
  intros W.
  apply (Permutation_NoDup (Permutation_sym (w_perm _ _ _ _ _ _ W))).
  apply seq_NoDup.
Qed.

Lemma world_initial : WorldInv urls draws (mkHeap [] []) 0 [] [].
Proof.
  constructor; cbn; try reflexivity; try (intros; contradiction); lia.
Qed.

(** Starting the operation of the next url keeps the bookkeeping. *)
Lemma world_start h n ops done url rest :
  WorldInv urls draws h n ops done ->
  skipn n urls = url :: rest ->
  WorldInv urls draws (pushExecuting n h) (S n) (ops ++ [(n, url)]) done
  /\ skipn (S n) urls = rest.
Proof.
  intros W Hs. destruct (skipn_cons_inv _ _ _ _ Hs) as (Hn & Hr & Hlt).
  split; [|exact Hr]. constructor.
  - cbn. rewrite map_app. cbn. now rewrite (w_exec _ _ _ _ _ _ W).
  - rewrite seq_S, map_app. cbn [map fst Nat.add].
    rewrite <- (w_perm _ _ _ _ _ _ W), <- app_assoc.
    rewrite <- app_assoc. apply Permutation_app_head.
    apply Permutation_app_comm.
  - intros p u Hin. apply in_app_or in Hin. destruct Hin as [Hin|[[= <- <-]|[]]].
    + exact (w_urls _ _ _ _ _ _ W _ _ Hin).
    + exact Hn.
  - exact (w_fulfils _ _ _ _ _ _ W).
  - exact (w_results _ _ _ _ _ _ W).
  - exact Hlt.
Qed.

(** The loop, resumed below capacity, suspends in a state of the
    invariant. *)
Lemma forOf_Inv (rest : list string) :
  forall h n ops done,
    WorldInv urls draws h n ops done ->
    rest = skipn n urls ->
    (Z.of_nat (List.length ops) < capacity limit)%Z ->
    Inv urls draws limit (forOf limit rest h n ops done).
Proof.
  induction rest as [|url rest IH]; intros h n ops done W Hs Hc.
  - cbn [forOf]. constructor; cbn; [exact W | | lia].
    unfold MainInv. cbn. rewrite (w_exec _ _ _ _ _ _ W).
    split; [apply incl_refl|]. split.
    + intros p Hp. apply (world_started _ _ _ _ p W). apply in_or_app. now left.
    + pose proof (w_le _ _ _ _ _ _ W) as Hle.
      pose proof (f_equal (@List.length string) Hs) as Hl.
      rewrite length_skipn in Hl. cbn in Hl. lia.
  - cbn [forOf].
    destruct (world_start _ _ _ _ _ _ W (eq_sym Hs)) as [W' Hr].
    assert (Hlen : List.length (executing (pushExecuting n h))
                   = S (List.length ops)).
    { rewrite (w_exec _ _ _ _ _ _ W'), length_map, length_app. cbn. lia. }
    destruct (Z.of_nat (List.length (executing (pushExecuting n h))) >=? limit)%Z
      eqn:Hge.
    + constructor; cbn.
      * exact W'.
      * unfold MainInv. cbn. repeat split.
        -- cbn. intros Hnil. apply app_eq_nil in Hnil. now destruct Hnil.
        -- rewrite <- (w_exec _ _ _ _ _ _ W'). apply incl_refl.
        -- intros p Hp. apply (world_started _ _ _ _ p W'). apply in_or_app.
           left. now rewrite <- (w_exec _ _ _ _ _ _ W').
        -- exact (eq_sym Hr).
        -- change (executing h ++ [n]) with (executing (pushExecuting n h)).
           rewrite Hlen. lia.
      * rewrite length_app. cbn. lia.
    + apply IH; [exact W' | exact (eq_sym Hr) |].
      rewrite Z.geb_leb, Z.leb_gt in Hge. rewrite Hlen in Hge.
      rewrite length_app. cbn. unfold capacity. lia.
Qed.

Lemma fetchWithConcurrency_Inv :
  Inv urls draws limit (fetchWithConcurrency urls limit).
Proof.
  apply forOf_Inv; [apply world_initial | reflexivity |].
  cbn. unfold capacity. lia.
Qed.


Lemma NoDup_app_excl {A : Type} (l1 l2 : list A) (x : A) :
  NoDup (l1 ++ l2) -> In x l1 -> In x l2 -> False.
Proof.
  induction l1 as [|y l1 IH]; [intros _ []|].
  cbn [app]. intros Hnd [->|Hin] H2; inversion Hnd as [|? ? Hy Hnd']; subst.
  - apply Hy. apply in_or_app. now right.
  - exact (IH Hnd' Hin H2).
Qed.

Lemma existsb_eqb_In (q : Promise) (xs : list Promise) :
  existsb (Nat.eqb q) xs = true <-> In q xs.
Proof.
  rewrite existsb_exists. split.
  - intros [x [Hx E]]. apply Nat.eqb_eq in E. now subst.
  - intros H. exists q. split; [exact H | apply Nat.eqb_refl].
Qed.

(** When the race is over, fewer operations are in flight than were
    raced. *)
Lemma race_frees_slot (s : State) snapshot rest q r :
  Inv urls draws limit s ->
  main s = AwaitRace snapshot rest ->
  find (fun d => existsb (Nat.eqb (fst d)) snapshot) (settled s) = Some (q, r) ->
  r = Fulfils
  /\ In q snapshot
  /\ (List.length (inflight s) < List.length snapshot)%nat.
Proof.
  intros I Hm Hfind. pose proof (inv_world _ _ _ _ I) as W.
  pose proof (inv_main _ _ _ _ I) as M. unfold MainInv in M. rewrite Hm in M.
  destruct M as (_ & Hincl & _ & _ & _).
  apply find_some in Hfind. destruct Hfind as [Hin Hq]. cbn [fst] in Hq.
  apply existsb_eqb_In in Hq.
  split; [exact (w_fulfils _ _ _ _ _ _ W _ Hin)|]. split; [exact Hq|].
  pose proof (world_NoDup _ _ _ _ W) as Hnd.
  assert (Hnq : ~ In q (map fst (inflight s))).
  { intros H. apply (NoDup_app_excl _ _ q Hnd H).
    apply in_map_iff. now exists (q, r). }
  assert (Hnd' : NoDup (q :: map fst (inflight s))).
  { constructor; [exact Hnq|]. exact (NoDup_app_remove_r _ _ Hnd). }
  assert (Hi : incl (q :: map fst (inflight s)) snapshot).
  { intros x [<-|Hx]; [exact Hq | now apply Hincl]. }
  pose proof (NoDup_incl_length Hnd' Hi) as Hlen.
  cbn [List.length] in Hlen. rewrite length_map in Hlen. lia.
Qed.

(** Every event keeps the invariant. *)
Lemma step_Inv (e : Event) (s s' : State) :
  Inv urls draws limit s -> step draws limit e s = Some s' ->
  Inv urls draws limit s'.
Proof.
  intros I. pose proof (inv_world _ _ _ _ I) as W.
  pose proof (inv_main _ _ _ _ I) as M. pose proof (inv_bound _ _ _ _ I) as B.
  destruct e as [p|]; cbn [step].
  - settle_happens s p url effects r Hu Hf. intros [= <-].
    apply urlOf_In in Hu.
    assert (Hp : In p (map fst (inflight s))).
    { apply in_map_iff. now exists (p, url). }
    pose proof (world_NoDup _ _ _ _ W) as Hnd.
    pose proof (NoDup_app_remove_r _ _ Hnd) as Hnd1.
    constructor; cbn.
    + constructor.
      * cbn. rewrite (w_exec _ _ _ _ _ _ W), splice1_indexOf by assumption.
        now rewrite map_fst_dropOp.
      * rewrite map_fst_dropOp, map_app. cbn [map fst].
        rewrite <- (w_perm _ _ _ _ _ _ W).
        transitivity (p :: filter (isNot p) (map fst (inflight s))
                        ++ map fst (settled s)).
        -- rewrite app_assoc. symmetry. apply Permutation_cons_append.
        -- rewrite app_comm_cons. apply Permutation_app_tail. symmetry.
           now apply Permutation_take_out.
      * intros q u Hq. apply In_dropOp in Hq.
        exact (w_urls _ _ _ _ _ _ W _ _ Hq).
      * intros d Hd. apply in_app_or in Hd. destruct Hd as [Hd|[<-|[]]].
        -- exact (w_fulfils _ _ _ _ _ _ W _ Hd).
        -- reflexivity.
      * cbn. rewrite !map_app, (w_results _ _ _ _ _ _ W). cbn. f_equal.
        unfold outcomeFor. now rewrite (w_urls _ _ _ _ _ _ W _ _ Hu), Hf.
      * exact (w_le _ _ _ _ _ _ W).
    + assert (Hsub : forall snapshot,
                incl (map fst (inflight s)) snapshot ->
                incl (map fst (dropOp (inflight s) p)) snapshot).
      { intros snapshot Hi q Hq. rewrite map_fst_dropOp in Hq.
        apply In_filter_isNot in Hq. apply Hi. tauto. }
      unfold MainInv in *. cbn. destruct (main s); try tauto.
      * destruct M as (H1 & H2 & H3 & H4 & H5). repeat split; auto.
      * destruct M as (H1 & H2 & H3). repeat split; auto.
      * destruct M as [H1 _]. rewrite H1 in Hu. destruct Hu.
    + pose proof (length_dropOp _ _ _ Hu). lia.
  - destruct (main s) as [snapshot rest|snapshot| |message] eqn:Hm;
      try discriminate.
    + destruct (find (fun d => existsb (Nat.eqb (fst d)) snapshot) (settled s))
        as [[q r]|] eqn:Hfind; [|discriminate].
      destruct (race_frees_slot _ _ _ _ _ I Hm Hfind) as (-> & _ & Hlt).
      intros [= <-]. unfold MainInv in M. rewrite Hm in M.
      destruct M as (_ & _ & _ & Hrest & Hcap).
      apply forOf_Inv; [exact W | exact Hrest | lia].
    + unfold MainInv in M. rewrite Hm in M. destruct M as (Hincl & Hlt & Hn).
      destruct (find _ (settled s)) as [[q r]|] eqn:Hfind.
      * apply find_some in Hfind. destruct Hfind as [Hin Hq].
        pose proof (w_fulfils _ _ _ _ _ _ W _ Hin) as Hr. cbn in Hr, Hq.
        subst r. discriminate.
      * destruct (forallb (isSettled (settled s)) snapshot) eqn:Hall;
          [|discriminate].
        intros [= <-]. constructor; cbn; [exact W | | exact B].
        unfold MainInv. cbn. split; [|exact Hn].
        destruct (inflight s) as [|[q u] ops] eqn:Hops; [reflexivity|].
        exfalso. rewrite forallb_forall in Hall.
        assert (Hq : In q snapshot) by (apply Hincl; now left).
        apply Hall, isSettled_In in Hq.
        apply (NoDup_app_excl _ _ q (world_NoDup _ _ _ _ W)); [now left|].
        exact Hq.
Qed.

(** Every state that a schedule reaches from the call satisfies the
    invariant. *)
Lemma reachable_Inv (es : list Event) (s : State) :
  exec draws limit es (fetchWithConcurrency urls limit) = Some s ->
  Inv urls draws limit s.
Proof.
  apply (exec_invariant draws limit (Inv urls draws limit)).
  - intros e s0 s1. apply step_Inv.
  - apply fetchWithConcurrency_Inv.
Qed.

End Safety.

(** ** Termination *)

Lemma forOf_workLeft (limit : Z) (rest : list string) :
  forall h n ops done,
    (workLeft (forOf limit rest h n ops done)
     <= List.length ops + 2 * List.length rest + 1)%nat.
Proof.
  induction rest as [|url rest IH]; intros h n ops done; cbn [forOf].
  - cbn. lia.
  - destruct (_ >=? limit)%Z.
    + unfold workLeft. cbn. rewrite length_app. cbn. lia.
    + specialize (IH (pushExecuting n h) (S n) (ops ++ [(n, url)]) done).
      rewrite length_app in IH. cbn [List.length] in *. lia.
Qed.

Lemma forOf_inflight (limit : Z) (rest : list string) :
  forall h n ops done,
    (List.length ops <= List.length (inflight (forOf limit rest h n ops done)))%nat.
Proof.
  induction rest as [|url rest IH]; intros h n ops done; cbn [forOf].
  - cbn. lia.
  - destruct (_ >=? limit)%Z.
    + cbn. rewrite length_app. cbn. lia.
    + specialize (IH (pushExecuting n h) (S n) (ops ++ [(n, url)]) done).
      rewrite length_app in IH. cbn [List.length] in *. lia.
Qed.

(** Every event uses up some of the work left: no schedule goes on for
    ever. *)
Lemma step_workLeft draws limit (e : Event) (s s' : State) :
  step draws limit e s = Some s' -> (workLeft s' < workLeft s)%nat.
Proof.
  destruct e as [p|]; cbn [step].
  - settle_happens s p url effects r Hu Hf. intros [= <-].
    apply urlOf_In in Hu.
    pose proof (length_dropOp _ _ _ Hu). unfold workLeft. cbn. lia.
  - unfold workLeft at 2.
    destruct (main s) as [snapshot rest|snapshot| |message]; try discriminate.
    + destruct (find _ (settled s)) as [[q [|message]]|]; try discriminate;
        intros [= <-].
      * pose proof (forOf_workLeft limit rest (heap s) (created s) (inflight s)
                      (settled s)). lia.
      * unfold workLeft. cbn. lia.
    + all_resumes ltac:(unfold workLeft; cbn; lia).
Qed.

Lemma exec_workLeft draws limit (es : list Event) :
  forall s s', exec draws limit es s = Some s' ->
               (List.length es + workLeft s' <= workLeft s)%nat.
Proof.
  induction es as [|e es IH]; intros s s'; cbn [exec List.length].
  - intros [= <-]. lia.
  - destruct (step draws limit e s) as [s1|] eqn:E; [|discriminate].
    intros H. apply IH in H. apply step_workLeft in E. lia.
Qed.

Lemma workLeft_initial (urls : list string) (limit : Z) :
  (workLeft (fetchWithConcurrency urls limit) <= 2 * List.length urls + 1)%nat.
Proof.
  unfold fetchWithConcurrency.
  pose proof (forOf_workLeft limit urls (mkHeap [] []) 0 [] []) as H.
  cbn [List.length] in H. lia.
Qed.

Section Liveness.

Variable urls : list string.
Variable draws : Promise -> nat -> Q.
Variable limit : Z.

Lemma settle_enabled (s : State) (p : Promise) (url : string)
    (ops : list (Promise * string)) :
  inflight s = (p, url) :: ops ->
  exists s', step draws limit (Settle p) s = Some s'.
Proof.
  intros Hops. cbn [step]. rewrite Hops, urlOf_head.
  destruct (fetchWithRetry_total url 3 1000 (draws p)) as (effects & r & E).
  rewrite E, settleChain_eq. eauto.
Qed.

(** With nothing in flight the awaited promise is settled: the body is
    never left waiting for a settlement that cannot come. *)
Lemma wake_enabled (s : State) :
  Inv urls draws limit s -> inflight s = [] -> main s <> Resolved ->
  exists s', step draws limit Wake s = Some s'.
Proof.
  intros I Hops Hmain. pose proof (inv_world _ _ _ _ I) as W.
  pose proof (inv_main _ _ _ _ I) as M. unfold MainInv in M.
  assert (Hdone : forall q, (q < created s)%nat -> In q (map fst (settled s))).
  { intros q Hq. apply (world_started urls draws _ _ _ _ q W) in Hq.
    rewrite Hops in Hq. exact Hq. }
  cbn [step].
  destruct (main s) as [snapshot rest|snapshot| |message] eqn:Hm;
    [| |congruence|contradiction].
  - destruct M as (Hne & _ & Hlt & _ & _).
    destruct (find (fun d => existsb (Nat.eqb (fst d)) snapshot) (settled s))
      as [[q r]|] eqn:Hfind.
    + destruct (race_frees_slot urls draws limit _ _ _ _ _ I Hm Hfind)
        as (-> & _ & _). eauto.
    + exfalso. destruct snapshot as [|q snapshot]; [congruence|].
      specialize (Hdone q (Hlt q (or_introl eq_refl))).
      apply in_map_iff in Hdone. destruct Hdone as [d [Hd Hin]].
      pose proof (find_none _ _ Hfind _ Hin) as Hf. cbn in Hf.
      rewrite Hd, Nat.eqb_refl in Hf. discriminate.
  - destruct M as (_ & Hlt & _).
    destruct (find _ (settled s)) as [[q r]|] eqn:Hfind.
    + exfalso. apply find_some in Hfind. destruct Hfind as [Hin Hq].
      pose proof (w_fulfils _ _ _ _ _ _ W _ Hin) as Hr. cbn in Hr, Hq.
      subst r. discriminate.
    + replace (forallb (isSettled (settled s)) snapshot) with true; [eauto|].
      symmetry. apply forallb_forall. intros q Hq. apply isSettled_In.
      apply Hdone, Hlt, Hq.
Qed.

(** No deadlock: short of resolution some event can happen, and the
    scheduler [nextEvent] picks one. *)
Lemma progress (s : State) :
  Inv urls draws limit s -> main s <> Resolved ->
  exists e s', nextEvent draws limit s = Some e
               /\ step draws limit e s = Some s'.
Proof.
  intros I Hmain. unfold nextEvent.
  destruct (step draws limit Wake s) as [s1|] eqn:Hw; [eauto|].
  destruct (inflight s) as [|[p url] ops] eqn:Hops.
  - destruct (wake_enabled s I Hops Hmain) as [s' E]. congruence.
  - destruct (settle_enabled s p url ops Hops) as [s' E]. eauto.
Qed.

Lemma workLeft_zero (s : State) :
  Inv urls draws limit s -> workLeft s = 0%nat -> main s = Resolved.
Proof.
  intros I. pose proof (inv_main _ _ _ _ I) as M. unfold MainInv in M.
  unfold workLeft. destruct (main s); [lia | lia | reflexivity | contradiction].
Qed.

(** The scheduler [nextEvent] brings the run to resolution within the work
    left. *)
Lemma drive_resolves (fuel : nat) :
  forall s,
    Inv urls draws limit s -> (workLeft s <= fuel)%nat ->
    main (drive draws limit fuel s) = Resolved
    /\ exists es, exec draws limit es s = Some (drive draws limit fuel s).
Proof.
  induction fuel as [|fuel IH]; intros s I Hw.
  - cbn [drive]. split; [apply (workLeft_zero s I); lia|].
    exists []. reflexivity.
  - cbn [drive].
    destruct (main s) as [snapshot rest|snapshot| |message] eqn:Hm.
    4: { pose proof (inv_main _ _ _ _ I) as M. unfold MainInv in M.
         rewrite Hm in M. contradiction. }
    3: { pose proof (inv_main _ _ _ _ I) as M. unfold MainInv in M.
         rewrite Hm in M. destruct M as [Hops _].
         unfold nextEvent. cbn [step]. rewrite Hm, Hops.
         split; [exact Hm | exists []; reflexivity]. }
    all: assert (Hne : main s <> Resolved) by congruence;
      destruct (progress s I Hne) as (e & s' & Hn & Hs);
      rewrite Hn, Hs;
      pose proof (step_workLeft _ _ _ _ _ Hs) as Hlt;
      assert (Hfuel : (workLeft s' <= fuel)%nat) by lia;
      destruct (IH s' (step_Inv urls draws limit _ _ _ I Hs) Hfuel)
        as [H1 [es H2]];
      (split; [exact H1|]); exists (e :: es); cbn [exec]; now rewrite Hs.
Qed.

(** What a resolved run returns: the settled targets are all of them, each
    once, and [results] has their entries in the order they settled. *)
Lemma resolved_results (s : State) :
  Inv urls draws limit s -> main s = Resolved ->
  Permutation (map fst (settled s)) (seq 0 (List.length urls))
  /\ map Some (results (heap s))
     = map (outcomeFor urls draws) (map fst (settled s))
  /\ List.length (results (heap s)) = List.length urls.
Proof.
  intros I Hm. pose proof (inv_world _ _ _ _ I) as W.
  pose proof (inv_main _ _ _ _ I) as M. unfold MainInv in M. rewrite Hm in M.
  destruct M as [Hops Hn].
  pose proof (w_perm _ _ _ _ _ _ W) as Hp. rewrite Hops, Hn in Hp.
  cbn [map app] in Hp.
  assert (Hr : map Some (results (heap s))
               = map (outcomeFor urls draws) (map fst (settled s))).
  { rewrite (w_results _ _ _ _ _ _ W), map_map. reflexivity. }
  repeat split; [exact Hp | exact Hr |].
  apply (f_equal (@List.length _)) in Hr. rewrite !length_map in Hr.
  rewrite Hr, <- (length_map fst), (Permutation_length Hp).
  apply length_seq.
Qed.

End Liveness.

(** ** Admission *)

Lemma forOf_settled (limit : Z) (rest : list string) :
  forall h n ops done, settled (forOf limit rest h n ops done) = done.
Proof.
  induction rest as [|url rest IH]; intros h n ops done; cbn [forOf];
    [reflexivity|].
  destruct (_ >=? limit)%Z; [reflexivity | apply IH].
Qed.

Lemma forOf_created (limit : Z) (rest : list string) :
  forall h n ops done, (n <= created (forOf limit rest h n ops done))%nat.
Proof.
  induction rest as [|url rest IH]; intros h n ops done; cbn [forOf];
    [cbn; lia|].
  destruct (_ >=? limit)%Z; [cbn; lia|].
  specialize (IH (pushExecuting n h) (S n) (ops ++ [(n, url)]) done). lia.
Qed.

(** With targets enough, the loop suspends with as many operations in
    flight as the limit. *)
Lemma forOf_fills (limit : Z) (rest : list string) :
  forall h n ops done,
    List.length (executing h) = List.length ops ->
    (Z.of_nat (List.length ops) < limit)%Z ->
    (limit <= Z.of_nat (List.length ops + List.length rest))%Z ->
    (exists snapshot rest',
        main (forOf limit rest h n ops done) = AwaitRace snapshot rest')
    /\ Z.of_nat (List.length (inflight (forOf limit rest h n ops done))) = limit
    /\ Z.of_nat (created (forOf limit rest h n ops done))
       = (Z.of_nat n + (limit - Z.of_nat (List.length ops)))%Z.
Proof.
  induction rest as [|url rest IH]; intros h n ops done He Hlt Hle.
  - cbn [List.length] in Hle. lia.
  - cbn [forOf].
    assert (Hlen : List.length (executing (pushExecuting n h))
                   = S (List.length ops)).
    { cbn. rewrite length_app, He. cbn. lia. }
    rewrite Hlen.
    destruct (Z.of_nat (S (List.length ops)) >=? limit)%Z eqn:Hge.
    + rewrite Z.geb_leb, Z.leb_le in Hge. cbn. rewrite length_app. cbn.
      repeat split; [eauto | lia | lia].
    + rewrite Z.geb_leb, Z.leb_gt in Hge.
      destruct (IH (pushExecuting n h) (S n) (ops ++ [(n, url)]) done)
        as (H1 & H2 & H3).
      * rewrite Hlen, length_app. cbn. lia.
      * rewrite length_app. cbn. lia.
      * rewrite length_app. cbn [List.length] in *. lia.
      * repeat split; [exact H1 | exact H2 |].
        rewrite H3, length_app. cbn [List.length]. lia.
Qed.

(** Only a settlement takes an operation out of flight. *)
Lemma only_settle_frees draws limit (e : Event) (s s' : State) :
  step draws limit e s = Some s' ->
  (List.length (inflight s') < List.length (inflight s))%nat ->
  exists p, e = Settle p.
Proof.
  destruct e as [p|]; [eauto|]. cbn [step]. intros H Hlt. exfalso.
  destruct (main s) as [snapshot rest|snapshot| |message]; try discriminate.
  - destruct (find _ (settled s)) as [[q [|message]]|]; try discriminate;
      injection H as <-.
    + pose proof (forOf_inflight limit rest (heap s) (created s) (inflight s)
                    (settled s)). lia.
    + cbn in Hlt. lia.
  - destruct (find _ (settled s)) as [[q [|message]]|];
      try (injection H as <-; cbn in Hlt; lia);
      destruct (forallb _ snapshot); try discriminate;
      injection H as <-; cbn in Hlt; lia.
Qed.

Lemma forOf_Sequential (limit : Z) (rest : list string) h n ops done :
  (limit <= 0)%Z -> executing h = [] ->
  Sequential (forOf limit rest h n ops done).
Proof.
  intros Hl He. unfold Sequential. destruct rest as [|url rest]; cbn [forOf].
  - exact I.
  - replace (_ >=? limit)%Z with true by (symmetry; rewrite Z.geb_leb, Z.leb_le; lia).
    cbn. now rewrite He.
Qed.

Section Admission.

Variable urls : list string.
Variable draws : Promise -> nat -> Q.
Variable limit : Z.

Lemma race_snapshot_bound (s : State) snapshot rest :
  Inv urls draws limit s -> main s = AwaitRace snapshot rest ->
  (Z.of_nat (List.length snapshot) <= capacity limit)%Z
  /\ forall p, In p snapshot -> (p < created s)%nat.
Proof.
  intros I Hm. pose proof (inv_main _ _ _ _ I) as M. unfold MainInv in M.
  rewrite Hm in M. tauto.
Qed.

Lemma step_Sequential (e : Event) (s s' : State) :
  (limit <= 0)%Z ->
  Inv urls draws limit s ->
  step draws limit e s = Some s' -> Sequential s -> Sequential s'.
Proof.
  intros Hl I. destruct e as [p|]; cbn [step].
  - settle_happens s p url effects r Hu Hf. now intros [= <-].
  - destruct (main s) as [snapshot rest|snapshot| |message] eqn:Hm;
      try discriminate.
    + destruct (find (fun d => existsb (Nat.eqb (fst d)) snapshot) (settled s))
        as [[q r]|] eqn:Hfind; [|discriminate].
      destruct (race_frees_slot urls draws limit _ _ _ _ _ I Hm Hfind)
        as (-> & _ & Hlt).
      destruct (race_snapshot_bound _ _ _ I Hm) as [Hcap _].
      intros [= <-] _. apply forOf_Sequential; [exact Hl|].
      rewrite (w_exec _ _ _ _ _ _ (inv_world _ _ _ _ I)).
      unfold capacity in Hcap.
      destruct (inflight s); [reflexivity | cbn [List.length] in Hlt; lia].
    + all_resumes ltac:(intros; exact Logic.I).
Qed.

Lemma reachable_Sequential (es : list Event) (s : State) :
  (limit <= 0)%Z ->
  exec draws limit es (fetchWithConcurrency urls limit) = Some s ->
  Sequential s.
Proof.
  intros Hl H.
  refine (proj2 (exec_invariant draws limit
            (fun s => Inv urls draws limit s /\ Sequential s) _ es _ s _ H)).
  - intros e s0 s1 [I Q] E. split.
    + exact (step_Inv urls draws limit _ _ _ I E).
    + exact (step_Sequential _ _ _ Hl I E Q).
  - split; [apply fetchWithConcurrency_Inv|].
    apply forOf_Sequential; [exact Hl | reflexivity].
Qed.

Lemma step_FirstWave (e : Event) (s s' : State) :
  Inv urls draws limit s ->
  step draws limit e s = Some s' -> FirstWave limit s -> FirstWave limit s'.
Proof.
  intros I. destruct e as [p|]; cbn [step].
  - settle_happens s p url effects r Hu Hf.
    intros [= <-] [H|[q [Hq Hs]]]; [now left|].
    right. exists q. split; [exact Hq|]. cbn.
    apply isSettled_In. rewrite map_app. apply in_or_app. left.
    now apply isSettled_In.
  - destruct (main s) as [snapshot rest|snapshot| |message] eqn:Hm;
      try discriminate.
    + destruct (find (fun d => existsb (Nat.eqb (fst d)) snapshot) (settled s))
        as [[q r]|] eqn:Hfind; [|discriminate].
      destruct (race_frees_slot urls draws limit _ _ _ _ _ I Hm Hfind)
        as (-> & Hq & _).
      destruct (race_snapshot_bound _ _ _ I Hm) as [_ Hlt].
      intros [= <-] H. right. rewrite forOf_settled.
      destruct H as [H|H]; [|exact H].
      exists q. split; [specialize (Hlt q Hq); lia|].
      apply find_some in Hfind. apply isSettled_In, in_map_iff.
      exists (q, Fulfils). tauto.
    + all_resumes ltac:(intros H; exact H).
Qed.

Lemma reachable_FirstWave (es : list Event) (s : State) :
  (1 <= limit)%Z ->
  exec draws limit es (fetchWithConcurrency urls limit) = Some s ->
  FirstWave limit s.
Proof.
  intros Hl H.
  refine (proj2 (exec_invariant draws limit
            (fun s => Inv urls draws limit s /\ FirstWave limit s)
            _ es _ s _ H)).
  - intros e s0 s1 [I Q] E. split.
    + exact (step_Inv urls draws limit _ _ _ I E).
    + exact (step_FirstWave _ _ _ I E Q).
  - split; [apply fetchWithConcurrency_Inv|]. left.
    destruct (Z_lt_le_dec (Z.of_nat (List.length urls)) limit) as [Hlt|Hle].
    + pose proof (w_le _ _ _ _ _ _
                    (inv_world _ _ _ _ (fetchWithConcurrency_Inv urls draws limit))).
      lia.
    + destruct (forOf_fills limit urls (mkHeap [] []) 0 [] [])
        as (_ & _ & Hc); cbn; try lia.
      unfold fetchWithConcurrency. cbn in Hc. lia.
Qed.

(** The promises built so far are the ones in flight and the ones
    settled. *)
Lemma created_split (s : State) :
  Inv urls draws limit s ->
  created s = (List.length (inflight s) + List.length (settled s))%nat.
Proof.
  intros I. pose proof (w_perm _ _ _ _ _ _ (inv_world _ _ _ _ I)) as Hp.
  apply Permutation_length in Hp.
  rewrite length_app, !length_map, length_seq in Hp. lia.
Qed.

End Admission.

(** ** Reading the entries back *)





Lemma entry_of_target urls draws (res : list Outcome) (order : list Promise)
    (p : Promise) :
  map Some res = map (outcomeFor urls draws) order ->
  In p order ->
  exists o, outcomeFor urls draws p = Some o /\ In o res.
Proof.
  intros E Hp. apply (in_map (outcomeFor urls draws)) in Hp.
  rewrite <- E in Hp. apply in_map_iff in Hp. destruct Hp as [o [Ho Hin]].
  eauto.
Qed.



(** ** More on the retry executor *)

Lemma startsWith_spec (s p : string) :
  Str.startsWith s p = true <-> exists b, s = (p ++ b)%string.
Proof.
  revert s. induction p as [|c p IH]; intros s.
  - split; [intros _; now exists s | intros _; destruct s; reflexivity].
  - destruct s as [|d s]; cbn [Str.startsWith].
    + split; [discriminate | intros [b H]; discriminate H].
    + rewrite andb_true_iff, Ascii.eqb_eq, IH. split.
      * intros [-> [b ->]]. now exists b.
      * intros [b [= -> ->]]. split; [reflexivity | now exists b].
Qed.

Lemma includes_spec (s sub : string) :
  Str.includes s sub = true <-> exists a b, s = (a ++ sub ++ b)%string.
Proof.
  split.
  - induction s as [|c s IH]; cbn [Str.includes]; rewrite orb_true_iff;
      intros [H|H]; try discriminate;
      try (apply startsWith_spec in H; destruct H as [b ->];
           now exists EmptyString, b).
    destruct (IH H) as (a & b & ->). now exists (String c a), b.
  - intros (a & b & ->). induction a as [|c a IH].
    + destruct (sub ++ b)%string eqn:E; cbn [Str.includes];
        apply orb_true_iff; left; apply startsWith_spec; exists b;
        now rewrite <- E.
    + cbn [append Str.includes]. rewrite IH. apply orb_true_r.
Qed.

Lemma totalWait_backoff (n : nat) (delay : Z) :
  fold_right Z.add 0%Z (map (fun k => backoffDelay k delay) (seq 0 n))
  = (delay * (2 ^ Z.of_nat n - 1))%Z.
Proof.
  induction n as [|n IH]; [cbn; ring|].
  rewrite seq_S, map_app, fold_right_app. cbn [map fold_right Nat.add].
  assert (Hgen : forall (l : list Z) (x : Z),
             fold_right Z.add x l = (fold_right Z.add 0 l + x)%Z).
  { induction l as [|y l IHl]; intros x; cbn [fold_right]; [lia|].
    rewrite IHl. lia. }
  rewrite Hgen, IH. unfold backoffDelay.
  rewrite Nat2Z.inj_succ, Z.pow_succ_r by lia. ring.
Qed.

(** The run goes on as long as the attempts fail with the retryable error
    and retries are left, and settles with the attempt at which it stops. *)
Lemma retry_runs_to (n : nat) :
  forall fuel url retries delay draws,
    (Z.to_nat retries <= fuel)%nat ->
    (forall i, (i < n)%nat -> (draws i < 0.2)%Q) ->
    (Z.of_nat n <= retries)%Z ->
    (0.2 <= draws n)%Q \/ Z.of_nat n = retries ->
    exists effects,
      fetchWithRetry_fuel fuel url retries delay draws
      = Some (effects, lastAttempt url (draws n))
      /\ invocations effects = S n
      /\ waits effects = map (fun k => backoffDelay k delay) (seq 0 n).
Proof.
  induction n as [|n IH]; intros fuel url retries delay draws Hf Hd Hn Hstop;
    rewrite fetchWithRetry_fuel_eq.
  - unfold lastAttempt.
    destruct (mockFetch_cases url (draws 0%nat))
      as [[E Hq]|[[E _]|[E _]]]; rewrite E.
    + destruct Hstop as [Hs|Hs]; [exfalso; exact (Qlt_not_le _ _ Hq Hs)|].
      cbn in Hs. subst retries. cbn [Z.gtb Z.compare andb]. eauto.
    + replace (isServerError "404 Not Found") with false by reflexivity.
      rewrite andb_false_r. eauto.
    + eauto.
  - rewrite (mockFetch_transient url _ (Hd 0%nat (Nat.lt_0_succ n))).
    replace (retries >? 0)%Z with true by (symmetry; apply Z.gtb_lt; lia).
    replace (isServerError "503 Service Unavailable") with true by reflexivity.
    cbn [andb]. destruct fuel as [|fuel]; [lia|].
    destruct (IH fuel url (retries - 1)%Z (delay * 2)%Z (fun k => draws (S k)))
      as (effects & E & Hi & Hw).
    + lia.
    + intros i Hi. apply Hd. lia.
    + lia.
    + destruct Hstop as [Hs|Hs]; [now left | right; lia].
    + rewrite E. eexists. split; [reflexivity|]. split.
      * unfold invocations in *. cbn [filter List.length]. now rewrite Hi.
      * cbn [waits]. rewrite Hw. apply backoff_shift.
Qed.

(** Conversely, where a run stopped tells what the draws were. *)
Lemma retry_stopped_at fuel :
  forall url retries delay draws effects r,
    (0 <= retries)%Z ->
    fetchWithRetry_fuel fuel url retries delay draws = Some (effects, r) ->
    (Z.of_nat (List.length (waits effects)) <= retries)%Z
    /\ invocations effects = S (List.length (waits effects))
    /\ (forall i, (i < List.length (waits effects))%nat -> (draws i < 0.2)%Q)
    /\ r = lastAttempt url (draws (List.length (waits effects)))
    /\ ((0.2 <= draws (List.length (waits effects)))%Q
        \/ Z.of_nat (List.length (waits effects)) = retries).
Proof.
  induction fuel as [|fuel IH]; intros url retries delay draws effects r Hr;
    rewrite fetchWithRetry_fuel_eq; unfold lastAttempt;
    destruct (mockFetch_cases url (draws 0%nat))
      as [[E Hq]|[[E [Hq _]]|[E Hq]]]; rewrite E.
  all: try (replace (isServerError "404 Not Found") with false by reflexivity;
            rewrite andb_false_r).
  all: try (intros [= <- <-]; cbn [waits List.length]; rewrite E;
            repeat split; try lia; try (intros i Hi; lia);
            left; first [exact Hq | apply (Qle_trans _ 0.3); [discriminate | exact Hq]]).
  all: replace (isServerError "503 Service Unavailable") with true by reflexivity;
    rewrite andb_true_r; destruct (retries >? 0)%Z eqn:Hpos; try discriminate.
  all: try (intros [= <- <-]; cbn [waits List.length]; rewrite E;
            rewrite Z.gtb_ltb, Z.ltb_ge in Hpos;
            repeat split; try lia; try (intros i Hi; lia); right; cbn; lia).
  destruct (fetchWithRetry_fuel fuel url (retries - 1) (delay * 2)
              (fun k => draws (S k))) as [[effects' r']|] eqn:E';
    [|discriminate].
  intros [= <- <-]. apply Z.gtb_lt in Hpos.
  apply IH in E'; [|lia]. destruct E' as (H1 & H2 & H3 & H4 & H5).
  cbn [waits List.length]. repeat split.
  - lia.
  - unfold invocations in *. cbn [filter List.length]. now rewrite H2.
  - intros [|i] Hi; [exact Hq | apply H3; lia].
  - exact H4.
  - destruct H5 as [H5|H5]; [now left | right; lia].
Qed.

(** A larger budget changes nothing for a run that did not use its budget
    up. *)
Lemma retry_budget_monotone fuel :
  forall fuel' url retries retries' delay draws effects r,
    fetchWithRetry_fuel fuel url retries delay draws = Some (effects, r) ->
    r <> Throws (finalFailure url "503 Service Unavailable") ->
    (retries <= retries')%Z ->
    (Z.to_nat retries' <= fuel')%nat ->
    fetchWithRetry_fuel fuel' url retries' delay draws = Some (effects, r).
Proof.
  induction fuel as [|fuel IH];
    intros fuel' url retries retries' delay draws effects r;
    rewrite (fetchWithRetry_fuel_eq fuel' url retries');
    [rewrite (fetchWithRetry_fuel_eq 0 url retries)
    |rewrite (fetchWithRetry_fuel_eq (S fuel) url retries)];
    destruct (mockFetch_cases url (draws 0%nat))
      as [[E _]|[[E _]|[E _]]]; rewrite E; try (intros; assumption).
  all: try (replace (isServerError "404 Not Found") with false by reflexivity;
            rewrite !andb_false_r; intros; assumption).
  all: replace (isServerError "503 Service Unavailable") with true by reflexivity;
    rewrite !andb_true_r; destruct (retries >? 0)%Z eqn:Hpos;
    try discriminate; try (intros [= <- <-] Hne; congruence).
  destruct (fetchWithRetry_fuel fuel url (retries - 1) (delay * 2)
              (fun k => draws (S k))) as [[effects' r']|] eqn:E';
    [|discriminate].
  intros [= <- <-] Hne Hle Hf. apply Z.gtb_lt in Hpos.
  replace (retries' >? 0)%Z with true by (symmetry; apply Z.gtb_lt; lia).
  destruct fuel' as [|fuel']; [lia|].
  rewrite (IH fuel' url (retries - 1)%Z (retries' - 1)%Z _ _ _ _ E' Hne);
    [reflexivity | lia | lia].
Qed.

(** ** More on the arrays *)

Lemma indexOf_absent (xs : list Promise) (p : Promise) :
  ~ In p xs -> JsArray.indexOf xs p = (-1)%Z.
Proof.
  induction xs as [|x xs IH]; [reflexivity|].
  intros Hn. cbn [JsArray.indexOf].
  destruct (Nat.eqb x p) eqn:E.
  - apply Nat.eqb_eq in E. subst. exfalso. apply Hn. now left.
  - rewrite IH by (intros H; apply Hn; now right). reflexivity.
Qed.

Lemma indexOf_first (l1 l2 : list Promise) (p : Promise) :
  ~ In p l1 ->
  JsArray.indexOf (l1 ++ p :: l2) p = Z.of_nat (List.length l1).
Proof.
  induction l1 as [|x l1 IH]; intros Hn; cbn [app JsArray.indexOf List.length].
  - now rewrite Nat.eqb_refl.
  - destruct (Nat.eqb x p) eqn:E.
    + apply Nat.eqb_eq in E. subst. exfalso. apply Hn. now left.
    + rewrite IH by (intros H; apply Hn; now right).
      replace (Z.of_nat (List.length l1) <? 0)%Z with false
        by (symmetry; apply Z.ltb_ge; lia).
      lia.
Qed.

Lemma splice1_at {A : Type} (l1 l2 : list A) (x : A) :
  JsArray.splice1 (l1 ++ x :: l2) (Z.of_nat (List.length l1)) = l1 ++ l2.
Proof.
  unfold JsArray.splice1. cbv zeta.
  replace (Z.of_nat (List.length l1) <? 0)%Z with false
    by (symmetry; apply Z.ltb_ge; lia).
  rewrite Z.min_l by (rewrite length_app; cbn [List.length]; lia).
  rewrite Nat2Z.id, firstn_app, Nat.sub_diag, firstn_all. cbn [firstn].
  rewrite app_nil_r. f_equal.
  rewrite skipn_app, skipn_all2 by lia.
  replace (S (List.length l1) - List.length l1)%nat with 1%nat by lia.
  reflexivity.
Qed.

Lemma splice1_from_end {A : Type} (xs : list A) :
  JsArray.splice1 xs (-1) = removelast xs.
Proof.
  unfold JsArray.splice1. cbv zeta. cbn [Z.ltb Z.compare].
  destruct xs as [|x xs]; [reflexivity|].
  set (l := x :: xs).
  assert (Hlen : (1 <= List.length l)%nat) by (cbn; lia).
  rewrite Z.max_l by lia.
  replace (Z.to_nat (Z.of_nat (List.length l) + -1)) with (pred (List.length l))
    by lia.
  replace (S (pred (List.length l))) with (List.length l) by lia.
  rewrite skipn_all, app_nil_r. symmetry. apply removelast_firstn_len.
Qed.

(** ** More on the dispatcher *)

Lemma forOf_results (limit : Z) (rest : list string) :
  forall h n ops done,
    results (heap (forOf limit rest h n ops done)) = results h.
Proof.
  induction rest as [|url rest IH]; intros h n ops done; cbn [forOf];
    [reflexivity|].
  destruct (_ >=? limit)%Z; [reflexivity | now rewrite IH].
Qed.

Lemma forOf_Suspended (limit : Z) (rest : list string) :
  forall h n ops done, Suspended (forOf limit rest h n ops done).
Proof.
  induction rest as [|url rest IH]; intros h n ops done; cbn [forOf];
    [reflexivity|].
  destruct (_ >=? limit)%Z; [reflexivity | apply IH].
Qed.

Lemma forOf_Saturated (limit : Z) (rest : list string) :
  forall h n ops done,
    List.length (executing h) = List.length ops ->
    (Z.of_nat (List.length ops) < capacity limit)%Z ->
    Saturated limit (forOf limit rest h n ops done).
Proof.
  induction rest as [|url rest IH]; intros h n ops done He Hc; cbn [forOf];
    [exact I|].
  assert (Hlen : List.length (executing (pushExecuting n h))
                 = S (List.length ops)).
  { cbn. rewrite length_app, He. cbn. lia. }
  destruct (_ >=? limit)%Z eqn:Hge.
  - rewrite Hlen, Z.geb_leb, Z.leb_le in Hge. unfold Saturated. cbn [main].
    rewrite Hlen. unfold capacity in *. lia.
  - rewrite Hlen, Z.geb_leb, Z.leb_gt in Hge. apply IH.
    + rewrite Hlen, length_app. cbn. lia.
    + rewrite length_app. cbn. unfold capacity. lia.
Qed.

(** What the loop does from a state below the limit when the urls left are
    too few to reach it: it starts them all and goes on to [Promise.all]. *)
Lemma forOf_starts_all (limit : Z) (rest : list string) :
  forall h n ops done,
    List.length (executing h) = List.length ops ->
    (Z.of_nat (List.length ops + List.length rest) < limit)%Z ->
    forOf limit rest h n ops done
    = mkState (mkHeap (results h) (executing h ++ seq n (List.length rest)))
              (n + List.length rest)
              (ops ++ combine (seq n (List.length rest)) rest) done
              (AwaitAll (executing h ++ seq n (List.length rest))).
Proof.
  induction rest as [|url rest IH]; intros h n ops done He Hlt; cbn [forOf].
  - cbn. rewrite !app_nil_r, Nat.add_0_r. now destruct h.
  - assert (Hlen : List.length (executing (pushExecuting n h))
                   = S (List.length ops)).
    { cbn. rewrite length_app, He. cbn. lia. }
    cbn [List.length] in Hlt.
    replace (_ >=? limit)%Z with false
      by (symmetry; rewrite Hlen, Z.geb_leb, Z.leb_gt; lia).
    rewrite IH.
    + cbn [pushExecuting results executing List.length seq combine].
      rewrite <- !app_assoc. cbn [app].
      now replace (S n + List.length rest)%nat
        with (n + S (List.length rest))%nat by lia.
    + rewrite Hlen, length_app. cbn. lia.
    + rewrite length_app. cbn [List.length]. lia.
Qed.

(** And when they are enough: it starts as many as bring the operations in
    flight to the limit, and awaits the race. *)
Lemma forOf_starts_upto (limit : Z) (rest : list string) :
  forall h n ops done (m : nat),
    List.length (executing h) = List.length ops ->
    (0 < m)%nat ->
    Z.of_nat (List.length ops + m) = limit ->
    (m <= List.length rest)%nat ->
    forOf limit rest h n ops done
    = mkState (mkHeap (results h) (executing h ++ seq n m)) (n + m)
              (ops ++ combine (seq n m) (firstn m rest)) done
              (AwaitRace (executing h ++ seq n m) (skipn m rest)).
Proof.
  induction rest as [|url rest IH]; intros h n ops done m He Hm Hl Hle;
    [cbn in Hle; lia|].
  cbn [forOf].
  assert (Hlen : List.length (executing (pushExecuting n h))
                 = S (List.length ops)).
  { cbn. rewrite length_app, He. cbn. lia. }
  destruct m as [|m]; [lia|]. cbn [List.length] in Hle.
  destruct m as [|m].
  - replace (_ >=? limit)%Z with true
      by (symmetry; rewrite Hlen, Z.geb_leb, Z.leb_le; lia).
    cbn. now rewrite Nat.add_1_r.
  - replace (_ >=? limit)%Z with false
      by (symmetry; rewrite Hlen, Z.geb_leb, Z.leb_gt; lia).
    rewrite (IH _ _ _ _ (S m)).
    + cbn [pushExecuting results executing seq combine firstn skipn].
      rewrite <- !app_assoc. cbn [app].
      now replace (S n + S m)%nat with (n + S (S m))%nat by lia.
    + rewrite Hlen, length_app. cbn. lia.
    + lia.
    + rewrite length_app. cbn [List.length]. lia.
    + lia.
Qed.

(** The results only grow, at the end. *)
Lemma step_results_grow draws limit (e : Event) (s s' : State) :
  step draws limit e s = Some s' ->
  exists more, results (heap s') = results (heap s) ++ more
               /\ (List.length more <= 1)%nat.
Proof.
  destruct e as [p|]; cbn [step].
  - settle_happens s p url effects r Hu Hf. intros [= <-].
    exists [outcomeOf r]. split; [reflexivity | cbn; lia].
  - exists []. rewrite app_nil_r. split; [|cbn; lia]. revert H.
    destruct (main s) as [snapshot rest|snapshot| |message]; try discriminate.
    + destruct (find _ (settled s)) as [[q [|message]]|]; try discriminate;
        intros [= <-]; [apply forOf_results | reflexivity].
    + all_resumes ltac:(reflexivity).
Qed.

Lemma exec_results_grow draws limit (es : list Event) :
  forall s s', exec draws limit es s = Some s' ->
    exists more, results (heap s') = results (heap s) ++ more.
Proof.
  induction es as [|e es IH]; intros s s'; cbn [exec].
  - intros [= <-]. exists []. now rewrite app_nil_r.
  - destruct (step draws limit e s) as [s1|] eqn:E; [|discriminate].
    intros H. destruct (IH _ _ H) as [more2 H2].
    destruct (step_results_grow _ _ _ _ _ E) as (more1 & H1 & _).
    exists (more1 ++ more2). now rewrite H2, H1, app_assoc.
Qed.

Lemma mockFetch_success (url : string) (random : Q) :
  (0.3 <= random)%Q ->
  mockFetch url random = Returns ("Response data from " ++ url)%string.
Proof.
  intros H. destruct (mockFetch_cases url random) as [[_ Hq]|[[_ [_ Hq]]|[E _]]];
    [| |exact E]; exfalso.
  - apply (Qlt_not_le _ _ Hq). apply (Qle_trans _ 0.3); [discriminate | exact H].
  - exact (Qlt_not_le _ _ Hq H).
Qed.

Lemma seq_app_prefix (l1 l2 : list nat) :
  forall a n, l1 ++ l2 = seq a n -> l1 = seq a (List.length l1).
Proof.
  induction l1 as [|x l1 IH]; intros a n H; [reflexivity|].
  destruct n as [|n]; [discriminate|]. cbn in H. injection H as -> H.
  cbn. f_equal. exact (IH _ _ H).
Qed.

Lemma wake_Suspended draws limit (s s' : State) :
  step draws limit Wake s = Some s' -> Suspended s'.
Proof.
  cbn [step].
  destruct (main s) as [snapshot rest|snapshot| |message]; try discriminate.
  - destruct (find _ (settled s)) as [[q [|message]]|]; try discriminate;
      intros [= <-]; [apply forOf_Suspended | exact I].
  - all_resumes ltac:(exact I).
Qed.

Lemma forOf_Ordered (limit : Z) (rest : list string) h n done :
  (limit <= 1)%Z -> map fst done = seq 0 n ->
  Ordered (forOf limit rest h n [] done).
Proof.
  intros Hl Hd. unfold Ordered. destruct rest as [|url rest]; cbn [forOf].
  - cbn. now rewrite app_nil_r.
  - replace (_ >=? limit)%Z with true.
    + cbn [settled inflight created app map fst]. now rewrite seq_S, Hd.
    + symmetry. rewrite Z.geb_leb, Z.leb_le. cbn. rewrite length_app. cbn. lia.
Qed.

Section MoreInvariants.

Variable urls : list string.
Variable draws : Promise -> nat -> Q.
Variable limit : Z.

Lemma reachable_Saturated (es : list Event) (s : State) :
  exec draws limit es (fetchWithConcurrency urls limit) = Some s ->
  Saturated limit s.
Proof.
  intros H.
  refine (proj2 (exec_invariant draws limit
            (fun s => Inv urls draws limit s /\ Saturated limit s)
            _ es _ s _ H)).
  - intros e s0 s1 [I Q] E. split; [exact (step_Inv urls draws limit _ _ _ I E)|].
    revert E. destruct e as [p|]; cbn [step].
    + settle_happens s0 p url effects r Hu Hf. now intros [= <-].
    + destruct (main s0) as [snapshot rest|snapshot| |message] eqn:Hm;
        try discriminate.
      * destruct (find (fun d => existsb (Nat.eqb (fst d)) snapshot) (settled s0))
          as [[q r]|] eqn:Hfind; [|discriminate].
        destruct (race_frees_slot urls draws limit _ _ _ _ _ I Hm Hfind)
          as (-> & _ & Hlt).
        destruct (race_snapshot_bound urls draws limit _ _ _ I Hm) as [Hcap _].
        intros [= <-]. apply forOf_Saturated; [|lia].
        now rewrite (w_exec _ _ _ _ _ _ (inv_world _ _ _ _ I)), length_map.
      * all_resumes ltac:(exact Logic.I).
  - split; [apply fetchWithConcurrency_Inv|].
    apply forOf_Saturated; [reflexivity | cbn; unfold capacity; lia].
Qed.

Lemma reachable_Ordered (es : list Event) (s : State) :
  (limit <= 1)%Z ->
  exec draws limit es (fetchWithConcurrency urls limit) = Some s ->
  Ordered s.
Proof.
  intros Hl H.
  refine (proj2 (exec_invariant draws limit
            (fun s => Inv urls draws limit s /\ Ordered s) _ es _ s _ H)).
  - intros e s0 s1 [I Q] E. split; [exact (step_Inv urls draws limit _ _ _ I E)|].
    pose proof (inv_bound _ _ _ _ I) as B. unfold capacity in B.
    revert E. unfold Ordered in *. destruct e as [p|]; cbn [step].
    + settle_happens s0 p url effects r Hu Hf. intros [= <-]. cbn.
      apply urlOf_In in Hu.
      destruct (inflight s0) as [|[q u] [|o ops]];
        [destruct Hu | | cbn [List.length] in B; lia].
      destruct Hu as [[= -> ->]|[]]. cbn [dropOp filter fst].
      rewrite Nat.eqb_refl. cbn. rewrite map_app, app_nil_r. exact Q.
    + destruct (main s0) as [snapshot rest|snapshot| |message] eqn:Hm;
        try discriminate.
      * destruct (find (fun d => existsb (Nat.eqb (fst d)) snapshot) (settled s0))
          as [[q r]|] eqn:Hfind; [|discriminate].
        destruct (race_frees_slot urls draws limit _ _ _ _ _ I Hm Hfind)
          as (-> & _ & Hlt).
        destruct (race_snapshot_bound urls draws limit _ _ _ I Hm) as [Hcap _].
        unfold capacity in Hcap. intros [= <-].
        destruct (inflight s0) as [|o ops]; [|cbn [List.length] in Hlt; lia].
        cbn in Q. rewrite app_nil_r in Q. now apply forOf_Ordered.
      * all_resumes ltac:(exact Q).
  - split; [apply fetchWithConcurrency_Inv|]. now apply forOf_Ordered.
Qed.

End MoreInvariants.

(** When the targets settle in list order the resolved results are the
    targets' entries, in list order. *)
Lemma ordered_results urls draws limit (s : State) :
  Inv urls draws limit s -> Ordered s -> main s = Resolved ->
  map Some (results (heap s))
  = map (outcomeFor urls draws) (seq 0 (List.length urls)).
Proof.
  intros I Q Hm. unfold Ordered in Q.
  pose proof (seq_app_prefix _ _ _ _ Q) as Hs. rewrite length_map in Hs.
  destruct (resolved_results urls draws limit s I Hm) as (Hp & Hr & _).
  apply Permutation_length in Hp. rewrite length_map, length_seq in Hp.
  now rewrite Hr, Hs, Hp.
Qed.

(** * The claims *)

(** C1.  With [1 <= limit <= N] targets: in every state that any schedule
    reaches, the operations started and not yet settled are at most [limit],
    and they are the promises [executing] holds; the call itself suspends in
    the race with exactly [limit] of them in flight; and an event after which
    fewer are in flight is a settlement. *)
Theorem C1_in_flight_at_most_limit
    (urls : list string) (limit : Z) (draws : Promise -> nat -> Q) :
  (1 <= limit)%Z -> (limit <= Z.of_nat (List.length urls))%Z ->
  (forall es s,
      exec draws limit es (fetchWithConcurrency urls limit) = Some s ->
      (Z.of_nat (List.length (inflight s)) <= limit)%Z
      /\ executing (heap s) = map fst (inflight s))
  /\ ((exists snapshot rest,
          main (fetchWithConcurrency urls limit) = AwaitRace snapshot rest)
      /\ Z.of_nat (List.length (inflight (fetchWithConcurrency urls limit)))
         = limit)
  /\ (forall es s e s',
        exec draws limit es (fetchWithConcurrency urls limit) = Some s ->
        step draws limit e s = Some s' ->
        (List.length (inflight s') < List.length (inflight s))%nat ->
        exists p, e = Settle p).
Proof.
  intros H1 HN. split; [|split].
  - intros es s H. pose proof (reachable_Inv urls draws limit es s H) as I.
    split.
    + pose proof (inv_bound _ _ _ _ I) as B. unfold capacity in B. lia.
    + exact (w_exec _ _ _ _ _ _ (inv_world _ _ _ _ I)).
  - unfold fetchWithConcurrency.
    destruct (forOf_fills limit urls (mkHeap [] []) 0 [] [])
      as (Hm & Hl & _); cbn; try lia. split; assumption.
  - intros es s e s' _ E Hlt. exact (only_settle_frees _ _ _ _ _ E Hlt).
Qed.

Lemma C1_witness :
  Z.of_nat (List.length (inflight (fetchWithConcurrency apiUrls 2))) = 2%Z.
Proof.
  refine (proj2 (proj1 (proj2
    (C1_in_flight_at_most_limit apiUrls 2 (fun _ _ => 0.5%Q) _ _)))).
  - lia.
  - simpl. lia.
Defined.

(** C2.  Whatever the limit, the draws and the schedule: a run that has
    resolved returns exactly one entry per target, the entry [fetchWithRetry]
    settles that target with, fulfilled or rejected, in the order the targets
    settled; and every run can resolve. *)
Theorem C2_one_outcome_per_target
    (urls : list string) (limit : Z) (draws : Promise -> nat -> Q) :
  (forall es s res,
      exec draws limit es (fetchWithConcurrency urls limit) = Some s ->
      resultSet s = Some res ->
      List.length res = List.length urls
      /\ exists order,
           Permutation order (seq 0 (List.length urls))
           /\ map Some res = map (outcomeFor urls draws) order)
  /\ (exists es s res,
        exec draws limit es (fetchWithConcurrency urls limit) = Some s
        /\ resultSet s = Some res).
Proof.
  split.
  - intros es s res H. pose proof (reachable_Inv urls draws limit es s H) as I.
    unfold resultSet. destruct (main s) eqn:Hm; try discriminate.
    intros [= <-].
    destruct (resolved_results urls draws limit s I Hm) as (Hp & Hr & Hl).
    split; [exact Hl|]. exists (map fst (settled s)). split; assumption.
  - destruct (drive_resolves urls draws limit (2 * List.length urls + 1)
                (fetchWithConcurrency urls limit)
                (fetchWithConcurrency_Inv urls draws limit)
                (workLeft_initial urls limit)) as [Hm [es H]].
    exists es, (drive draws limit (2 * List.length urls + 1)
                  (fetchWithConcurrency urls limit)).
    eexists. split; [exact H|]. unfold resultSet. now rewrite Hm.
Qed.
(** C3.  A target whose operation fails with the retryable (5xx) error on
    every attempt: [fetchWithRetry] with a budget of [retries] calls the
    operation exactly [retries + 1] times, suspending [retries] times in
    between, then settles rejected.  The reason is the final-failure wrapping
    of the last error, not the bare error, and it signals exhaustion: over
    all executions with that budget, a rejection whose reason signals it has
    used every retry. *)
Theorem C3_transient_retried_then_rejected
    (url : string) (retries delay : Z) (draws : nat -> Q) :
  (0 <= retries)%Z ->
  (forall k, (draws k < 0.2)%Q) ->
  exists effects reason,
    fetchWithRetry url retries delay draws = Some (effects, Throws reason)
    /\ Z.of_nat (invocations effects) = (retries + 1)%Z
    /\ Z.of_nat (List.length (waits effects)) = retries
    /\ reason = finalFailure url "503 Service Unavailable"
    /\ reason <> "503 Service Unavailable"
    /\ signalsExhaustion reason = true
    /\ (forall draws' effects' reason',
          fetchWithRetry url retries delay draws'
          = Some (effects', Throws reason') ->
          signalsExhaustion reason' = true ->
          Z.of_nat (List.length (waits effects')) = retries).
Proof.
  intros Hr Hd. unfold fetchWithRetry.
  destruct (always_transient (Z.to_nat retries) (Z.to_nat retries) url delay
              draws (le_n _) Hd) as (effects & E & Hi & Hw).
  rewrite Z2Nat.id in E by exact Hr.
  exists effects, (finalFailure url "503 Service Unavailable").
  repeat split.
  - exact E.
  - rewrite Hi. lia.
  - rewrite Hw, length_map, length_seq. lia.
  - discriminate.
  - unfold signalsExhaustion. now rewrite parseReason_transient.
  - intros draws' effects' reason' E' Hs.
    destruct (reason_classifies _ _ _ _ _ _ _ Hr E') as [(_ & Hl & _)|(Hn & _)].
    + rewrite Hl. lia.
    + congruence.
Qed.

Lemma C3_witness :
  exists effects reason,
    fetchWithRetry "API-1 (User Profile)" 3 1000 (fun _ => 0.1%Q)
    = Some (effects, Throws reason)
    /\ Z.of_nat (invocations effects) = 4%Z
    /\ reason = finalFailure "API-1 (User Profile)" "503 Service Unavailable".
Proof.
  destruct (C3_transient_retried_then_rejected "API-1 (User Profile)" 3 1000
              (fun _ => 0.1%Q)) as (effects & reason & E & Hi & _ & Hr & _).
  - lia.
  - intros _. reflexivity.
  - exists effects, reason. repeat split; assumption.
Defined.

(** C4.  A target whose operation fails with the non-retryable (4xx) error:
    [fetchWithRetry] settles rejected after one call of the operation and no
    suspension, whatever the budget, and the reason is the failure's message
    wrapped with the final-failure marker and the url. *)
Theorem C4_permanent_rejected_at_once
    (url : string) (retries delay : Z) (draws : nat -> Q) :
  (0.2 <= draws 0%nat)%Q -> (draws 0%nat < 0.3)%Q ->
  mockFetch url (draws 0%nat) = Throws "404 Not Found"
  /\ exists effects reason,
       fetchWithRetry url retries delay draws = Some (effects, Throws reason)
       /\ effects = [Request url]
       /\ invocations effects = 1%nat
       /\ waits effects = []
       /\ reason
          = ("❌ Final Failure for " ++ url ++ ": " ++ "404 Not Found")%string
       /\ parseReason reason = Some (url, "404 Not Found")
       /\ signalsExhaustion reason = false.
Proof.
  intros H1 H2. pose proof (mockFetch_permanent url _ H1 H2) as E.
  split; [exact E|].
  exists [Request url], (finalFailure url "404 Not Found").
  unfold fetchWithRetry. rewrite fetchWithRetry_fuel_eq, E.
  replace (isServerError "404 Not Found") with false by reflexivity.
  rewrite andb_false_r. repeat split.
  - apply parseReason_permanent.
  - unfold signalsExhaustion. now rewrite parseReason_permanent.
Qed.

Lemma C4_witness :
  exists effects reason,
    fetchWithRetry "API-2 (Dashboard Stats)" 3 1000 (fun _ => 0.25%Q)
    = Some (effects, Throws reason)
    /\ invocations effects = 1%nat.
Proof.
  destruct (C4_permanent_rejected_at_once "API-2 (Dashboard Stats)" 3 1000
              (fun _ => 0.25%Q)) as (_ & effects & reason & E & _ & Hi & _).
  - discriminate.
  - reflexivity.
  - exists effects, reason. split; assumption.
Defined.

(** C5.  The wait before retry number [k] (0 for the first retry) of any
    execution of [fetchWithRetry(url, retries, delay)] is
    [delay * 2 ^ k], the value of the Backoff Policy; each wait is twice the
    one before; and there is no cap: with a budget of [n] retries and an
    operation that keeps failing, all of the first [n] terms are waited. *)
Theorem C5_backoff_doubles
    (url : string) (retries delay : Z) (draws : nat -> Q)
    (effects : list Effect) (r : Settled) :
  fetchWithRetry url retries delay draws = Some (effects, r) ->
  (forall k, (k < List.length (waits effects))%nat ->
     nth k (waits effects) 0%Z = (delay * 2 ^ Z.of_nat k)%Z
     /\ nth k (waits effects) 0%Z = backoffDelay k delay)
  /\ (forall k, (S k < List.length (waits effects))%nat ->
        nth (S k) (waits effects) 0%Z = (2 * nth k (waits effects) 0)%Z)
  /\ (forall n : nat, exists effects' r',
        fetchWithRetry url (Z.of_nat n) delay (fun _ => 0.1%Q)
        = Some (effects', r')
        /\ waits effects' = map (fun k => backoffDelay k delay) (seq 0 n)).
Proof.
  intros E. apply waits_geometric in E.
  assert (Hk : forall k, (k < List.length (waits effects))%nat ->
                nth k (waits effects) 0%Z = backoffDelay k delay).
  { intros k Hlt. rewrite E.
    rewrite (nth_indep _ 0%Z (backoffDelay 0 delay))
      by (now rewrite length_map, length_seq).
    rewrite (map_nth (fun k => backoffDelay k delay)), seq_nth by exact Hlt.
    reflexivity. }
  repeat split.
  - now apply Hk.
  - now apply Hk.
  - intros k Hlt. rewrite !Hk by lia. rewrite <- backoffDelay_next.
    unfold backoffDelay. ring.
  - intros n. unfold fetchWithRetry. rewrite Nat2Z.id.
    destruct (always_transient n n url delay (fun _ => 0.1%Q) (le_n _))
      as (effects' & E' & _ & Hw); [intros _; reflexivity|].
    eauto.
Qed.

Lemma C5_witness :
  nth 2 [1000; 2000; 4000]%Z 0%Z = (1000 * 2 ^ 2)%Z.
Proof.
  refine (proj1 (proj1 (C5_backoff_doubles "API-1 (User Profile)" 3 1000
           (fun _ => 0.1%Q)
           [Request "API-1 (User Profile)"; Wait 1000;
            Request "API-1 (User Profile)"; Wait 2000;
            Request "API-1 (User Profile)"; Wait 4000;
            Request "API-1 (User Profile)"]
           (Throws (finalFailure "API-1 (User Profile)"
                      "503 Service Unavailable")) _) 2%nat _)).
  - vm_compute. reflexivity.
  - simpl. lia.
Defined.

(** C6, as the claim states it, fails: called with [limit = 0] on the urls
    of the program, [fetchWithConcurrency] raises nothing.  It admits the
    first target and suspends in the race. *)
Lemma C6_counterexample :
  ~ failsFast (fetchWithConcurrency apiUrls 0)
  /\ main (fetchWithConcurrency apiUrls 0)
     = AwaitRace [0%nat] ["API-2 (Dashboard Stats)"; "API-3 (Notifications)";
                          "API-4 (Settings)"; "API-5 (Friends List)"]
  /\ inflight (fetchWithConcurrency apiUrls 0)
     = [(0%nat, "API-1 (User Profile)")].
Proof.
  split; [|split; reflexivity].
  intros [message [H _]]. discriminate H.
Qed.

(** C6, amended.  With a limit below one [fetchWithConcurrency] validates
    nothing and raises nothing: the call admits the first target, no state
    any schedule reaches is a rejected run, no such state is stuck and every
    schedule is finite.  The targets are processed one at a time: at most one
    operation is in flight, the loop resumes from a race only when none is,
    and the targets settle in the order of the list.  Whatever the schedule,
    the run resolves with one entry per target, the entry of that target. *)
Theorem C6_no_validation_no_hang
    (urls : list string) (limit : Z) (draws : Promise -> nat -> Q) :
  (limit < 1)%Z ->
  ~ failsFast (fetchWithConcurrency urls limit)
  /\ (urls <> [] ->
      created (fetchWithConcurrency urls limit) = 1%nat
      /\ exists url, inflight (fetchWithConcurrency urls limit) = [(0%nat, url)])
  /\ (forall es s,
        exec draws limit es (fetchWithConcurrency urls limit) = Some s ->
        (forall message, main s <> Failed message)
        /\ (List.length es <= 2 * List.length urls + 1)%nat
        /\ (main s <> Resolved -> exists e s', step draws limit e s = Some s')
        /\ (List.length (inflight s) <= 1)%nat
        /\ (forall snapshot rest s',
              main s = AwaitRace snapshot rest ->
              step draws limit Wake s = Some s' -> inflight s = [])
        /\ map fst (settled s) ++ map fst (inflight s) = seq 0 (created s)
        /\ (forall res, resultSet s = Some res ->
            List.length res = List.length urls
            /\ map Some res
               = map (outcomeFor urls draws) (seq 0 (List.length urls))))
  /\ (exists res,
        resultSet (drive draws limit (2 * List.length urls + 1)
                     (fetchWithConcurrency urls limit)) = Some res
        /\ List.length res = List.length urls).
Proof.
  intros Hl.
  pose proof (fetchWithConcurrency_Inv urls draws limit) as I0.
  split; [|split; [|split]].
  - intros [message [H _]]. pose proof (inv_main _ _ _ _ I0) as M.
    unfold MainInv in M. now rewrite H in M.
  - intros Hne. destruct urls as [|url rest]; [congruence|].
    unfold fetchWithConcurrency. cbn [forOf].
    replace (_ >=? limit)%Z with true
      by (symmetry; rewrite Z.geb_leb, Z.leb_le; cbn; lia).
    cbn. eauto.
  - intros es s H. pose proof (reachable_Inv urls draws limit es s H) as I.
    pose proof (inv_bound _ _ _ _ I) as B. unfold capacity in B.
    assert (Q : Ordered s)
      by (apply (reachable_Ordered urls draws limit es s); [lia | exact H]).
    split; [|split; [|split; [|split; [|split; [|split]]]]].
    + intros message Hm. pose proof (inv_main _ _ _ _ I) as M.
      unfold MainInv in M. now rewrite Hm in M.
    + pose proof (exec_workLeft _ _ _ _ _ H).
      pose proof (workLeft_initial urls limit). lia.
    + intros Hm. destruct (progress urls draws limit s I Hm)
        as (e & s' & _ & E). eauto.
    + lia.
    + intros snapshot rest s' Hm. cbn [step]. rewrite Hm.
      destruct (find (fun d => existsb (Nat.eqb (fst d)) snapshot) (settled s))
        as [[q r]|] eqn:Hfind; [|discriminate].
      destruct (race_frees_slot urls draws limit _ _ _ _ _ I Hm Hfind)
        as (_ & _ & Hlt).
      destruct (race_snapshot_bound urls draws limit _ _ _ I Hm) as [Hcap _].
      unfold capacity in Hcap. intros _.
      destruct (inflight s); [reflexivity | cbn [List.length] in Hlt; lia].
    + exact Q.
    + intros res. unfold resultSet. destruct (main s) eqn:Hm; try discriminate.
      intros [= <-].
      destruct (resolved_results urls draws limit s I Hm) as (_ & _ & Hlen).
      split; [exact Hlen|]. exact (ordered_results urls draws limit s I Q Hm).
  - destruct (drive_resolves urls draws limit (2 * List.length urls + 1) _ I0
                (workLeft_initial urls limit)) as [Hm [es H]].
    pose proof (reachable_Inv urls draws limit es _ H) as I.
    destruct (resolved_results urls draws limit _ I Hm) as (_ & _ & Hlen).
    unfold resultSet. rewrite Hm. eauto.
Qed.

Lemma C6_witness :
  exists res,
    resultSet (drive (fun _ _ => 0.5%Q) 0 11 (fetchWithConcurrency apiUrls 0))
    = Some res
    /\ List.length res = 5%nat.
Proof.
  refine (proj2 (proj2 (proj2
    (C6_no_validation_no_hang apiUrls 0 (fun _ _ => 0.5%Q) _)))).
  lia.
Defined.

(** C7.  Whatever the limit, the draws and the schedule: the run is never
    rejected and every [p] settles fulfilled; short of resolution some event
    can always happen, and a schedule has at most [2 N + 1] events, so the run
    resolves; and each target, whatever the others and itself settle to, has
    its entry in the results, a failure as a [rejected] entry. *)
Theorem C7_run_always_resolves
    (urls : list string) (limit : Z) (draws : Promise -> nat -> Q) :
  (forall es s,
      exec draws limit es (fetchWithConcurrency urls limit) = Some s ->
      (forall message, main s <> Failed message)
      /\ (forall d, In d (settled s) -> snd d = Fulfils)
      /\ (List.length es + workLeft s <= 2 * List.length urls + 1)%nat
      /\ (main s <> Resolved -> exists e s', step draws limit e s = Some s')
      /\ (forall res, resultSet s = Some res ->
          forall p url effects r,
            nth_error urls p = Some url ->
            fetchWithRetry url 3 1000 (draws p) = Some (effects, r) ->
            In (outcomeOf r) res))
  /\ main (drive draws limit (2 * List.length urls + 1)
             (fetchWithConcurrency urls limit)) = Resolved.
Proof.
  split.
  - intros es s H. pose proof (reachable_Inv urls draws limit es s H) as I.
    pose proof (inv_main _ _ _ _ I) as M. unfold MainInv in M.
    split; [|split; [|split; [|split]]].
    + intros message Hm. now rewrite Hm in M.
    + exact (w_fulfils _ _ _ _ _ _ (inv_world _ _ _ _ I)).
    + pose proof (exec_workLeft _ _ _ _ _ H).
      pose proof (workLeft_initial urls limit). lia.
    + intros Hm. destruct (progress urls draws limit s I Hm)
        as (e & s' & _ & E). eauto.
    + intros res. unfold resultSet. destruct (main s) eqn:Hm; try discriminate.
      intros [= <-] p url effects r Hn Hf.
      destruct (resolved_results urls draws limit s I Hm) as (Hp & Hr & _).
      assert (Hin : In p (map fst (settled s))).
      { apply (Permutation_in _ (Permutation_sym Hp)), in_seq.
        assert (Hsome : nth_error urls p <> None) by congruence.
        apply nth_error_Some in Hsome. lia. }
      destruct (entry_of_target _ _ _ _ _ Hr Hin) as (o & Ho & Hres).
      unfold outcomeFor in Ho. rewrite Hn, Hf in Ho. now injection Ho as <-.
  - apply (drive_resolves urls draws limit).
    + apply fetchWithConcurrency_Inv.
    + apply workLeft_initial.
Qed.

(** C8.  Targets [A, B, C, D, E] with a limit of two, whatever the draws
    and the schedule: the call starts A and B and suspends with C, D and E
    not started; the targets started are always the first ones of the list;
    C and later targets are started only once A or B has settled, and no
    more than two targets beyond the settled ones are ever started; the run
    resolves, with five entries, each fulfilled or rejected. *)
Theorem C8_five_targets_limit_two (draws : Promise -> nat -> Q) :
  let urls := ["A"; "B"; "C"; "D"; "E"] in
  let s0 := fetchWithConcurrency urls 2 in
  (inflight s0 = [(0%nat, "A"); (1%nat, "B")]
   /\ main s0 = AwaitRace [0%nat; 1%nat] ["C"; "D"; "E"]
   /\ created s0 = 2%nat)
  /\ (forall es s,
        exec draws 2 es s0 = Some s ->
        (forall p, In p (map fst (inflight s) ++ map fst (settled s))
                   <-> (p < created s)%nat)
        /\ (forall p url, In (p, url) (inflight s) -> nth_error urls p = Some url)
        /\ (List.length (inflight s) <= 2)%nat
        /\ ((2 < created s)%nat ->
            isSettled (settled s) 0 = true \/ isSettled (settled s) 1 = true)
        /\ (created s <= 2 + List.length (settled s))%nat
        /\ (forall res, resultSet s = Some res ->
            List.length res = 5%nat
            /\ forall o, In o res ->
                 (exists value, o = fulfilled value)
                 \/ (exists reason, o = rejected reason)))
  /\ main (drive draws 2 11 s0) = Resolved.
Proof.
  intros urls s0. split; [repeat split|split].
  - intros es s H. pose proof (reachable_Inv urls draws 2 es s H) as I.
    pose proof (inv_world _ _ _ _ I) as W.
    pose proof (inv_bound _ _ _ _ I) as B. unfold capacity in B.
    split; [|split; [|split; [|split; [|split]]]].
    + intros p. exact (world_started urls draws _ _ _ _ p W).
    + exact (w_urls _ _ _ _ _ _ W).
    + lia.
    + intros Hc.
      destruct (reachable_FirstWave urls draws 2 es s) as [Hle|[p [Hp Hs]]];
        [lia | exact H | lia |].
      destruct p as [|[|p]]; [now left | now right | lia].
    + rewrite (created_split urls draws 2 s I). lia.
    + intros res. unfold resultSet. destruct (main s) eqn:Hm; try discriminate.
      intros [= <-].
      destruct (resolved_results urls draws 2 s I Hm) as (_ & _ & Hlen).
      split; [exact Hlen|].
      intros [value|reason] _; [left | right]; eauto.
  - apply (drive_resolves urls draws 2 11 s0).
    + apply fetchWithConcurrency_Inv.
    + exact (workLeft_initial urls 2).
Qed.



(** C10.  With a limit of zero or less, whatever the draws and the
    schedule: the race is always on one promise, the one just built, so it
    is never on an empty array; the body resumes from it only when nothing is
    in flight, so at most one operation is in flight at any time; no state is
    stuck and none is a rejected run; and the run resolves with one entry per
    target. *)
Theorem C10_limit_below_one_is_sequential
    (urls : list string) (limit : Z) (draws : Promise -> nat -> Q) :
  (limit <= 0)%Z ->
  (forall es s,
      exec draws limit es (fetchWithConcurrency urls limit) = Some s ->
      (forall snapshot rest,
          main s = AwaitRace snapshot rest ->
          snapshot = [pred (created s)]
          /\ incl (map fst (inflight s)) snapshot
          /\ forall s', step draws limit Wake s = Some s' -> inflight s = [])
      /\ (List.length (inflight s) <= 1)%nat
      /\ (forall message, main s <> Failed message)
      /\ (main s <> Resolved -> exists e s', step draws limit e s = Some s')
      /\ (forall res, resultSet s = Some res ->
          List.length res = List.length urls
          /\ exists order,
               Permutation order (seq 0 (List.length urls))
               /\ map Some res = map (outcomeFor urls draws) order))
  /\ main (drive draws limit (2 * List.length urls + 1)
             (fetchWithConcurrency urls limit)) = Resolved.
Proof.
  intros Hl. split.
  - intros es s H. pose proof (reachable_Inv urls draws limit es s H) as I.
    pose proof (inv_main _ _ _ _ I) as M. unfold MainInv in M.
    pose proof (inv_bound _ _ _ _ I) as B. unfold capacity in B.
    split; [|split; [|split; [|split]]].
    + intros snapshot rest Hm.
      pose proof (reachable_Sequential urls draws limit es s Hl H) as Q.
      unfold Sequential in Q. rewrite Hm in Q, M.
      destruct M as (_ & Hincl & _ & _ & Hcap).
      split; [exact Q|]. split; [exact Hincl|].
      intros s'. cbn [step]. rewrite Hm.
      destruct (find (fun d => existsb (Nat.eqb (fst d)) snapshot) (settled s))
        as [[q r]|] eqn:Hfind; [|discriminate].
      destruct (race_frees_slot urls draws limit _ _ _ _ _ I Hm Hfind)
        as (_ & _ & Hlt).
      intros _. rewrite Q in Hlt. cbn [List.length] in Hlt.
      destruct (inflight s); [reflexivity | cbn [List.length] in Hlt; lia].
    + lia.
    + intros message Hm. now rewrite Hm in M.
    + intros Hm. destruct (progress urls draws limit s I Hm)
        as (e & s' & _ & E). eauto.
    + intros res. unfold resultSet. destruct (main s) eqn:Hm; try discriminate.
      intros [= <-].
      destruct (resolved_results urls draws limit s I Hm) as (Hp & Hr & Hlen).
      split; [exact Hlen|]. exists (map fst (settled s)). split; assumption.
  - apply (drive_resolves urls draws limit).
    + apply fetchWithConcurrency_Inv.
    + apply workLeft_initial.
Qed.

Lemma C10_witness :
  main (drive (fun _ _ => 0.5%Q) 0 11 (fetchWithConcurrency apiUrls 0))
  = Resolved.
Proof.
  refine (proj2 (C10_limit_below_one_is_sequential apiUrls 0
                   (fun _ _ => 0.5%Q) _)).
  lia.
Defined.

(** * Further properties of the program *)

(** ** [fetchWithRetry] *)

(** X1.  Where an execution of [fetchWithRetry] stops: having waited [k]
    times, it has called the operation [k + 1] times, [k] is within the
    budget, the first [k] attempts failed with the retryable error, and the
    settlement is that of attempt [k]: the response when it succeeded, the
    wrapped 404 when it failed for good, and the wrapped 503 only when the
    budget was used up. *)
Theorem X1_retry_stops_at_first_final_attempt
    (url : string) (retries delay : Z) (draws : nat -> Q)
    (effects : list Effect) (r : Settled) :
  (0 <= retries)%Z ->
  fetchWithRetry url retries delay draws = Some (effects, r) ->
  let k := List.length (waits effects) in
  (Z.of_nat k <= retries)%Z
  /\ invocations effects = S k
  /\ (forall i, (i < k)%nat -> (draws i < 0.2)%Q)
  /\ (((0.3 <= draws k)%Q
       /\ r = Returns ("Response data from " ++ url)%string)
      \/ ((0.2 <= draws k)%Q /\ (draws k < 0.3)%Q
          /\ r = Throws (finalFailure url "404 Not Found"))
      \/ ((draws k < 0.2)%Q /\ Z.of_nat k = retries
          /\ r = Throws (finalFailure url "503 Service Unavailable"))).
Proof.
  intros Hr E k. apply retry_stopped_at in E; [|exact Hr].
  destruct E as (H1 & H2 & H3 & H4 & H5). fold k in H1, H2, H3, H4, H5.
  repeat split; try assumption. unfold lastAttempt in H4.
  destruct (mockFetch_cases url (draws k)) as [[E Hq]|[[E [Hq Hq']]|[E Hq]]];
    rewrite E in H4.
  - right. right. destruct H5 as [H5|H5];
      [exfalso; exact (Qlt_not_le _ _ Hq H5) | tauto].
  - right. left. tauto.
  - left. tauto.
Qed.

Lemma X1_witness :
  let effects := [Request "X"; Wait 1000; Request "X"]%Z in
  invocations effects = 2%nat.
Proof.
  intros effects.
  refine (proj1 (proj2 (X1_retry_stops_at_first_final_attempt "X" 3 1000
            (fun k => if Nat.eqb k 0 then 0.1%Q else 0.25%Q) effects
            (Throws (finalFailure "X" "404 Not Found")) _ _))).
  - lia.
  - vm_compute. reflexivity.
Defined.

(** X2.  A target that fails with the retryable error [n] times and then
    succeeds, with [n] within the budget, is fulfilled with its response
    after [n + 1] calls, and the time waited is
    [delay + 2 delay + ... = delay * (2 ^ n - 1)]. *)
Theorem X2_retry_recovers
    (url : string) (retries delay : Z) (draws : nat -> Q) (n : nat) :
  (forall i, (i < n)%nat -> (draws i < 0.2)%Q) ->
  (0.3 <= draws n)%Q ->
  (Z.of_nat n <= retries)%Z ->
  exists effects,
    fetchWithRetry url retries delay draws
    = Some (effects, Returns ("Response data from " ++ url)%string)
    /\ invocations effects = S n
    /\ waits effects = map (fun k => backoffDelay k delay) (seq 0 n)
    /\ totalWait effects = (delay * (2 ^ Z.of_nat n - 1))%Z.
Proof.
  intros Hd Hn Hr. unfold fetchWithRetry.
  destruct (retry_runs_to n (Z.to_nat retries) url retries delay draws)
    as (effects & E & Hi & Hw); try assumption; try lia.
  { left. apply (Qle_trans _ 0.3); [discriminate | exact Hn]. }
  unfold lastAttempt in E. rewrite (mockFetch_success url _ Hn) in E.
  exists effects. repeat split; try assumption.
  unfold totalWait. rewrite Hw. apply totalWait_backoff.
Qed.

Lemma X2_witness :
  exists effects,
    fetchWithRetry "X" 3 1000 (fun k => if Nat.ltb k 2 then 0.1%Q else 0.9%Q)
    = Some (effects, Returns "Response data from X")
    /\ totalWait effects = 3000%Z.
Proof.
  destruct (X2_retry_recovers "X" 3 1000
              (fun k => if Nat.ltb k 2 then 0.1%Q else 0.9%Q) 2)
    as (effects & E & _ & _ & Ht).
  - intros i Hi. destruct i as [|[|i]]; [reflexivity | reflexivity | lia].
  - discriminate.
  - lia.
  - exists effects. split; [exact E | exact Ht].
Defined.

(** X3.  With a budget of zero or less nothing is retried: the operation is
    called once and its result, wrapped as final when it is a failure of
    either kind, is the settlement. *)
Theorem X3_no_budget_no_retry
    (url : string) (retries delay : Z) (draws : nat -> Q) :
  (retries <= 0)%Z ->
  fetchWithRetry url retries delay draws
  = Some ([Request url], lastAttempt url (draws 0%nat)).
Proof.
  intros Hr. unfold fetchWithRetry, lastAttempt.
  rewrite fetchWithRetry_fuel_eq.
  destruct (mockFetch url (draws 0%nat)) as [data|message]; [reflexivity|].
  replace (retries >? 0)%Z with false
    by (symmetry; rewrite Z.gtb_ltb; apply Z.ltb_ge; exact Hr).
  reflexivity.
Qed.

Lemma X3_witness :
  fetchWithRetry "X" (-1) 1000 (fun _ => 0.1%Q)
  = Some ([Request "X"], Throws (finalFailure "X" "503 Service Unavailable")).
Proof.
  refine (X3_no_budget_no_retry "X" (-1) 1000 (fun _ => 0.1%Q) _). lia.
Defined.

(** X4.  The time an execution waits is [delay * (2 ^ k - 1)] for its [k]
    retries, so at most [delay * (2 ^ retries - 1)]: 7000 ms with the
    defaults. *)
Theorem X4_total_wait_bounded
    (url : string) (retries delay : Z) (draws : nat -> Q)
    (effects : list Effect) (r : Settled) :
  (0 <= retries)%Z -> (0 <= delay)%Z ->
  fetchWithRetry url retries delay draws = Some (effects, r) ->
  totalWait effects
  = (delay * (2 ^ Z.of_nat (List.length (waits effects)) - 1))%Z
  /\ (totalWait effects <= delay * (2 ^ retries - 1))%Z.
Proof.
  intros Hr Hd E. assert (Hsum : totalWait effects
    = (delay * (2 ^ Z.of_nat (List.length (waits effects)) - 1))%Z).
  { unfold totalWait. rewrite (waits_geometric _ _ _ _ _ _ _ E) at 1.
    apply totalWait_backoff. }
  split; [exact Hsum|]. rewrite Hsum.
  apply retry_stopped_at in E; [|exact Hr]. destruct E as [Hk _].
  apply Z.mul_le_mono_nonneg_l; [exact Hd|].
  apply Z.sub_le_mono_r, Z.pow_le_mono_r; lia.
Qed.

Lemma X4_witness :
  (totalWait [Request "X"; Wait 1000; Request "X"; Wait 2000; Request "X"]
   <= 1000 * (2 ^ 3 - 1))%Z.
Proof.
  refine (proj2 (X4_total_wait_bounded "X" 3 1000
            (fun k => if Nat.ltb k 2 then 0.1%Q else 0.9%Q)
            [Request "X"; Wait 1000; Request "X"; Wait 2000; Request "X"]%Z
            (Returns "Response data from X") _ _ _)).
  - lia.
  - lia.
  - vm_compute. reflexivity.
Defined.

(** X5.  A larger budget never makes things worse: an execution that was
    fulfilled, or rejected for good by a 404, goes the same way, call for
    call, with any larger budget.  Only a rejection by exhaustion can
    change. *)
Theorem X5_larger_budget_keeps_outcome
    (url : string) (retries retries' delay : Z) (draws : nat -> Q)
    (effects : list Effect) (r : Settled) :
  fetchWithRetry url retries delay draws = Some (effects, r) ->
  r <> Throws (finalFailure url "503 Service Unavailable") ->
  (retries <= retries')%Z ->
  fetchWithRetry url retries' delay draws = Some (effects, r).
Proof.
  intros E Hne Hle. unfold fetchWithRetry in *.
  exact (retry_budget_monotone _ _ _ _ _ _ _ _ _ E Hne Hle (le_n _)).
Qed.

Lemma X5_witness :
  fetchWithRetry "X" 7 1000 (fun k => if Nat.ltb k 2 then 0.1%Q else 0.9%Q)
  = Some ([Request "X"; Wait 1000; Request "X"; Wait 2000; Request "X"]%Z,
          Returns "Response data from X").
Proof.
  refine (X5_larger_budget_keeps_outcome "X" 3 7 1000 _ _ _ _ _ _).
  - vm_compute. reflexivity.
  - discriminate.
  - lia.
Defined.

(** X6.  The test for a retryable failure, [error.message.includes("50")],
    holds exactly of the messages in which the characters 5 and 0 follow
    each other anywhere: whatever the status the message is about. *)
Theorem X6_server_error_is_a_substring_test (message : string) :
  isServerError message = true
  <-> exists before after, message = (before ++ "50" ++ after)%string.
Proof. unfold isServerError. apply includes_spec. Qed.

(** ** [fetchWithConcurrency] *)

(** X7.  The callback of [.finally],
    [executing.splice(executing.indexOf(p), 1)], takes the first occurrence
    of [p] out of [executing] and keeps the rest in order; when [p] is not
    in the array it takes the last promise out instead.  It leaves [results]
    alone. *)
Theorem X7_finally_removes_p_or_the_last (p : Promise) (h : Heap) :
  (forall before after,
      executing h = before ++ p :: after -> ~ In p before ->
      executing (removeExecuting p h) = before ++ after)
  /\ (~ In p (executing h) ->
      executing (removeExecuting p h) = removelast (executing h))
  /\ results (removeExecuting p h) = results h.
Proof.
  split; [|split; [|reflexivity]].
  - intros before after E Hn. cbn. rewrite E, indexOf_first by exact Hn.
    apply splice1_at.
  - intros Hn. cbn. rewrite indexOf_absent by exact Hn.
    apply splice1_from_end.
Qed.

(** X8.  Called on no targets, with any limit, the dispatcher starts
    nothing, awaits [Promise.all] of the empty array and resolves with the
    empty array: the only schedule is the one resumption. *)
Theorem X8_no_targets
    (limit : Z) (draws : Promise -> nat -> Q) :
  (forall es s,
      exec draws limit es (fetchWithConcurrency [] limit) = Some s ->
      (es = [] \/ es = [Wake]) /\ results (heap s) = [] /\ created s = 0%nat)
  /\ exists s,
       exec draws limit [Wake] (fetchWithConcurrency [] limit) = Some s
       /\ resultSet s = Some [].
Proof.
  split.
  - intros [|[p|] [|e es]]; cbn; try discriminate.
    + intros s [= <-]. auto.
    + intros s [= <-]. auto.
    + destruct e; discriminate.
  - eexists. split; reflexivity.
Qed.

(** X9.  What the call itself does, for a limit of one or more: with fewer
    targets than the limit it starts them all, in order, and goes straight
    to [Promise.all]; otherwise it starts the first [limit] of them and
    awaits their race, the others waiting (none is left when the targets are
    exactly [limit], and the race is awaited all the same). *)
Theorem X9_call_starts_up_to_limit (urls : list string) (limit : Z) :
  (1 <= limit)%Z ->
  let N := List.length urls in
  let L := Z.to_nat limit in
  ((Z.of_nat N < limit)%Z ->
   fetchWithConcurrency urls limit
   = mkState (mkHeap [] (seq 0 N)) N (combine (seq 0 N) urls) []
             (AwaitAll (seq 0 N)))
  /\ ((limit <= Z.of_nat N)%Z ->
      fetchWithConcurrency urls limit
      = mkState (mkHeap [] (seq 0 L)) L (combine (seq 0 L) (firstn L urls)) []
                (AwaitRace (seq 0 L) (skipn L urls))).
Proof.
  intros Hl N L. unfold fetchWithConcurrency. split; intros H.
  - rewrite forOf_starts_all; [reflexivity | reflexivity | cbn; lia].
  - rewrite (forOf_starts_upto limit urls _ _ _ _ L);
      [reflexivity | reflexivity | lia | cbn; lia | lia].
Qed.

Lemma X9_witness :
  fetchWithConcurrency apiUrls 9
  = mkState (mkHeap [] [0; 1; 2; 3; 4]%nat) 5
            (combine [0; 1; 2; 3; 4]%nat apiUrls) [] (AwaitAll [0; 1; 2; 3; 4]%nat).
Proof.
  refine (proj1 (X9_call_starts_up_to_limit apiUrls 9 _) _).
  - lia.
  - simpl. lia.
Defined.

(** X10.  Targets are started in the order of the list, whatever the limit
    and the schedule: at any time the targets started are the first
    [created] ones, each operation in flight is that of the url at its
    position, the urls the suspended loop has left are the rest of the list,
    and once the loop is over all have been started. *)
Theorem X10_targets_start_in_list_order
    (urls : list string) (limit : Z) (draws : Promise -> nat -> Q)
    (es : list Event) (s : State) :
  exec draws limit es (fetchWithConcurrency urls limit) = Some s ->
  (forall p, In p (map fst (inflight s) ++ map fst (settled s))
             <-> (p < created s)%nat)
  /\ (forall p url, In (p, url) (inflight s) -> nth_error urls p = Some url)
  /\ (created s <= List.length urls)%nat
  /\ (forall snapshot rest,
        main s = AwaitRace snapshot rest -> rest = skipn (created s) urls)
  /\ (forall snapshot,
        main s = AwaitAll snapshot -> created s = List.length urls).
Proof.
  intros H. pose proof (reachable_Inv urls draws limit es s H) as I.
  pose proof (inv_world _ _ _ _ I) as W.
  pose proof (inv_main _ _ _ _ I) as M. unfold MainInv in M.
  split; [|split; [|split; [|split]]].
  - intros p. exact (world_started urls draws _ _ _ _ p W).
  - exact (w_urls _ _ _ _ _ _ W).
  - exact (w_le _ _ _ _ _ _ W).
  - intros snapshot rest Hm. rewrite Hm in M. tauto.
  - intros snapshot Hm. rewrite Hm in M. tauto.
Qed.

Lemma X10_witness :
  ["API-3 (Notifications)"; "API-4 (Settings)"; "API-5 (Friends List)"]
  = skipn (created (fetchWithConcurrency apiUrls 2)) apiUrls.
Proof.
  refine (proj1 (proj2 (proj2 (proj2
    (X10_targets_start_in_list_order apiUrls 2 (fun _ _ => 0.5%Q) []
       (fetchWithConcurrency apiUrls 2) _)))) [0; 1]%nat _ _).
  - reflexivity.
  - reflexivity.
Defined.

(** X11.  The loop waits only when it is full: a race is always on exactly
    as many promises as may be in flight ([limit], or one when the limit is
    below one), and when the loop suspends in a race they are the
    operations in flight, all of them. *)
Theorem X11_race_only_at_capacity
    (urls : list string) (limit : Z) (draws : Promise -> nat -> Q)
    (es : list Event) (s : State) :
  exec draws limit es (fetchWithConcurrency urls limit) = Some s ->
  (forall snapshot rest,
      main s = AwaitRace snapshot rest ->
      Z.of_nat (List.length snapshot) = capacity limit
      /\ incl (map fst (inflight s)) snapshot)
  /\ (forall s' snapshot rest,
        step draws limit Wake s = Some s' ->
        main s' = AwaitRace snapshot rest ->
        map fst (inflight s') = snapshot
        /\ Z.of_nat (List.length (inflight s')) = capacity limit)
  /\ (forall snapshot rest,
        main (fetchWithConcurrency urls limit) = AwaitRace snapshot rest ->
        map fst (inflight (fetchWithConcurrency urls limit)) = snapshot).
Proof.
  intros H. pose proof (reachable_Inv urls draws limit es s H) as I.
  split; [|split].
  - intros snapshot rest Hm.
    pose proof (reachable_Saturated urls draws limit es s H) as Q.
    pose proof (inv_main _ _ _ _ I) as M. unfold MainInv in M.
    unfold Saturated in Q. rewrite Hm in Q, M. tauto.
  - intros s' snapshot rest E Hm.
    assert (H' : exec draws limit (es ++ [Wake])
                   (fetchWithConcurrency urls limit) = Some s').
    { rewrite exec_app, H. cbn [exec]. now rewrite E. }
    pose proof (reachable_Inv urls draws limit _ s' H') as I'.
    pose proof (reachable_Saturated urls draws limit _ s' H') as Q.
    pose proof (wake_Suspended _ _ _ _ E) as S.
    unfold Saturated in Q. unfold Suspended in S. rewrite Hm in Q, S.
    rewrite (w_exec _ _ _ _ _ _ (inv_world _ _ _ _ I')) in S.
    split; [now symmetry|]. rewrite <- Q, S. now rewrite length_map.
  - intros snapshot rest Hm.
    pose proof (forOf_Suspended limit urls (mkHeap [] []) 0 [] []) as S.
    fold (fetchWithConcurrency urls limit) in S. unfold Suspended in S.
    rewrite Hm in S.
    rewrite (w_exec _ _ _ _ _ _
               (inv_world _ _ _ _ (fetchWithConcurrency_Inv urls draws limit)))
      in S.
    now symmetry.
Qed.

Lemma X11_witness :
  Z.of_nat (List.length [0; 1]%nat) = capacity 2
  /\ incl (map fst (inflight (fetchWithConcurrency apiUrls 2))) [0; 1]%nat.
Proof.
  refine (proj1 (X11_race_only_at_capacity apiUrls 2 (fun _ _ => 0.5%Q) []
                   (fetchWithConcurrency apiUrls 2) _) [0; 1]%nat
            ["API-3 (Notifications)"; "API-4 (Settings)";
             "API-5 (Friends List)"] _).
  - reflexivity.
  - reflexivity.
Defined.

(** X12.  A target beyond the first ones waits for settlements: the targets
    started never exceed the settled ones by more than the limit (one, for a
    limit below one), and with a limit of one or more a target beyond the
    first [limit] is started only when one of those has settled. *)
Theorem X12_later_targets_wait_for_settlements
    (urls : list string) (limit : Z) (draws : Promise -> nat -> Q)
    (es : list Event) (s : State) :
  exec draws limit es (fetchWithConcurrency urls limit) = Some s ->
  (Z.of_nat (created s) <= capacity limit + Z.of_nat (List.length (settled s)))%Z
  /\ ((1 <= limit)%Z -> (limit < Z.of_nat (created s))%Z ->
      exists p, (Z.of_nat p < limit)%Z /\ isSettled (settled s) p = true).
Proof.
  intros H. pose proof (reachable_Inv urls draws limit es s H) as I. split.
  - rewrite (created_split urls draws limit s I).
    pose proof (inv_bound _ _ _ _ I). lia.
  - intros Hl Hc.
    destruct (reachable_FirstWave urls draws limit es s Hl H) as [Hle|Hp];
      [lia | exact Hp].
Qed.

Lemma X12_witness :
  (Z.of_nat (created (fetchWithConcurrency apiUrls 2))
   <= capacity 2
      + Z.of_nat (List.length (settled (fetchWithConcurrency apiUrls 2))))%Z.
Proof.
  refine (proj1 (X12_later_targets_wait_for_settlements apiUrls 2
                   (fun _ _ => 0.5%Q) [] (fetchWithConcurrency apiUrls 2) _)).
  reflexivity.
Defined.

(** X13.  [results] is append-only: whatever happens after a state, the
    entries it had stay where they are and new ones come after them; and at
    any time no target has settled twice and [results] has one entry per
    settled target. *)
Theorem X13_results_append_only
    (urls : list string) (limit : Z) (draws : Promise -> nat -> Q)
    (es1 es2 : list Event) (s1 s2 : State) :
  exec draws limit es1 (fetchWithConcurrency urls limit) = Some s1 ->
  exec draws limit es2 s1 = Some s2 ->
  (exists more, results (heap s2) = results (heap s1) ++ more)
  /\ NoDup (map fst (settled s2))
  /\ List.length (results (heap s2)) = List.length (settled s2).
Proof.
  intros H1 H2. split; [exact (exec_results_grow _ _ _ _ _ H2)|].
  assert (H : exec draws limit (es1 ++ es2) (fetchWithConcurrency urls limit)
              = Some s2) by (now rewrite exec_app, H1).
  pose proof (inv_world _ _ _ _ (reachable_Inv urls draws limit _ s2 H)) as W.
  split.
  - exact (NoDup_app_remove_l _ _ (world_NoDup urls draws _ _ _ _ W)).
  - pose proof (f_equal (@List.length _) (w_results _ _ _ _ _ _ W)) as Hl.
    now rewrite !length_map in Hl.
Qed.

Lemma X13_witness :
  exists more,
    results (heap (drive (fun _ _ => 0.5%Q) 2 11 (fetchWithConcurrency apiUrls 2)))
    = results (heap (drive (fun _ _ => 0.5%Q) 2 2 (fetchWithConcurrency apiUrls 2)))
      ++ more.
Proof.
  refine (proj1 (X13_results_append_only apiUrls 2 (fun _ _ => 0.5%Q)
            [Settle 0%nat; Wake]
            [Settle 1%nat; Wake; Settle 2%nat; Wake; Settle 3%nat; Wake;
             Settle 4%nat; Wake] _ _ _ _)).
  - vm_compute. reflexivity.
  - vm_compute. reflexivity.
Defined.

(** X14.  With a limit of one (or less) the results come in the order of the
    list: at any time they are the entries of the first targets, in order,
    and the ResultSet of the resolved run is the list of the targets'
    entries. *)
Theorem X14_limit_one_keeps_list_order
    (urls : list string) (limit : Z) (draws : Promise -> nat -> Q)
    (es : list Event) (s : State) :
  (limit <= 1)%Z ->
  exec draws limit es (fetchWithConcurrency urls limit) = Some s ->
  map Some (results (heap s))
  = map (outcomeFor urls draws) (seq 0 (List.length (settled s)))
  /\ (forall res, resultSet s = Some res ->
      map Some res = map (outcomeFor urls draws) (seq 0 (List.length urls))).
Proof.
  intros Hl H. pose proof (reachable_Inv urls draws limit es s H) as I.
  pose proof (reachable_Ordered urls draws limit es s Hl H) as Q.
  unfold Ordered in Q. pose proof (seq_app_prefix _ _ _ _ Q) as Hs.
  rewrite length_map in Hs.
  assert (Hr : map Some (results (heap s))
               = map (outcomeFor urls draws) (seq 0 (List.length (settled s)))).
  { rewrite (w_results _ _ _ _ _ _ (inv_world _ _ _ _ I)).
    rewrite <- Hs. now rewrite map_map. }
  split; [exact Hr|].
  intros res. unfold resultSet. destruct (main s) eqn:Hm; try discriminate.
  intros [= <-].
  destruct (resolved_results urls draws limit s I Hm) as (Hp & _ & _).
  apply Permutation_length in Hp. rewrite length_map, length_seq in Hp.
  now rewrite Hr, Hp.
Qed.

Lemma X14_witness :
  map Some
    (results (heap (drive (fun _ _ => 0.5%Q) 1 11
                      (fetchWithConcurrency apiUrls 1))))
  = map (outcomeFor apiUrls (fun _ _ => 0.5%Q)) (seq 0 5).
Proof.
  refine (proj2 (X14_limit_one_keeps_list_order apiUrls 1 (fun _ _ => 0.5%Q)
            [Settle 0%nat; Wake; Settle 1%nat; Wake; Settle 2%nat; Wake;
             Settle 3%nat; Wake; Settle 4%nat; Wake; Wake]
            (drive (fun _ _ => 0.5%Q) 1 11 (fetchWithConcurrency apiUrls 1))
            _ _) _ _).
  - lia.
  - vm_compute. reflexivity.
  - vm_compute. reflexivity.
Defined.

(** X15.  The array returned is final: once the run has resolved nothing is
    in flight, [executing] is empty, and no event can happen any more, so
    the ResultSet the caller holds does not change. *)
Theorem X15_resolved_is_final
    (urls : list string) (limit : Z) (draws : Promise -> nat -> Q)
    (es : list Event) (s : State) :
  exec draws limit es (fetchWithConcurrency urls limit) = Some s ->
  main s = Resolved ->
  inflight s = []
  /\ executing (heap s) = []
  /\ forall e, step draws limit e s = None.
Proof.
  intros H Hm. pose proof (reachable_Inv urls draws limit es s H) as I.
  pose proof (inv_main _ _ _ _ I) as M. unfold MainInv in M. rewrite Hm in M.
  destruct M as [Hops _]. split; [exact Hops|]. split.
  - now rewrite (w_exec _ _ _ _ _ _ (inv_world _ _ _ _ I)), Hops.
  - intros [p|]; cbn [step]; [now rewrite Hops | now rewrite Hm].
Qed.

Lemma X15_witness :
  step (fun _ _ => 0.5%Q) 2 (Settle 4%nat)
    (drive (fun _ _ => 0.5%Q) 2 11 (fetchWithConcurrency apiUrls 2)) = None.
Proof.
  refine (proj2 (proj2 (X15_resolved_is_final apiUrls 2 (fun _ _ => 0.5%Q)
            [Settle 0%nat; Wake; Settle 1%nat; Wake; Settle 2%nat; Wake;
             Settle 3%nat; Wake; Settle 4%nat; Wake] _ _ _)) (Settle 4%nat)).
  - vm_compute. reflexivity.
  - vm_compute. reflexivity.
Defined.

(** X16.  The order in which the operations settle only permutes the
    ResultSet: two runs on the same targets with the same draws, however
    scheduled, resolve with the same entries. *)
Theorem X16_schedule_only_permutes_results
    (urls : list string) (limit : Z) (draws : Promise -> nat -> Q)
    (es1 es2 : list Event) (s1 s2 : State) (res1 res2 : list Outcome) :
  exec draws limit es1 (fetchWithConcurrency urls limit) = Some s1 ->
  exec draws limit es2 (fetchWithConcurrency urls limit) = Some s2 ->
  resultSet s1 = Some res1 ->
  resultSet s2 = Some res2 ->
  Permutation res1 res2.
Proof.
  intros H1 H2. unfold resultSet.
  destruct (main s1) eqn:Hm1; try discriminate.
  destruct (main s2) eqn:Hm2; try discriminate.
  intros [= <-] [= <-].
  destruct (resolved_results urls draws limit s1
              (reachable_Inv urls draws limit es1 s1 H1) Hm1) as (Hp1 & Hr1 & _).
  destruct (resolved_results urls draws limit s2
              (reachable_Inv urls draws limit es2 s2 H2) Hm2) as (Hp2 & Hr2 & _).
  assert (Hp : Permutation (map Some (results (heap s1)))
                           (map Some (results (heap s2)))).
  { rewrite Hr1, Hr2. apply Permutation_map.
    now rewrite Hp1, Hp2. }
  apply Permutation_map_inv in Hp. destruct Hp as (l & Hl & Hp).
  assert (El : results (heap s1) = l).
  { clear -Hl. revert l Hl.
    induction (results (heap s1)) as [|o os IH]; intros [|x l]; cbn;
      try discriminate; [reflexivity|].
    intros [= -> Hl]. f_equal. now apply IH. }
  subst l. now symmetry.
Qed.

Lemma X16_witness :
  Permutation
    [fulfilled "Response data from A"; fulfilled "Response data from B"]
    [fulfilled "Response data from B"; fulfilled "Response data from A"].
Proof.
  refine (X16_schedule_only_permutes_results ["A"; "B"] 2 (fun _ _ => 0.5%Q)
            [Settle 0%nat; Settle 1%nat; Wake; Wake]
            [Settle 1%nat; Settle 0%nat; Wake; Wake] _ _ _ _ _ _ _ _);
    vm_compute; reflexivity.
Defined.
